(** * pcolorcells notebook: cell edges, KML extents and export geometry

    A shallow embedding of the arithmetic in
    [notebooks/visclaw/pcolorcells.ipynb]: the sample grid of cell 5, the
    centre-to-edge conversion of cell 7, the slicing of cell 13, the bowl
    of cell 15, the colour choice of cell 17 and the expanded extent of
    cell 24.

    The notebook runs on numpy [float64] arrays, but none of its
    operators is tied to that type.  The embedding is therefore written once
    over a [Number] interface and instantiated twice: at IEEE binary64 (the
    kernel's primitive floats, which is what the notebook computes with) and
    at the rationals (arithmetic without rounding).

    Statements that only follow the data (which inputs raise, what the
    results depend on, the shapes of the arrays) are proved for any
    [Number].  The enclosure of the centres by the extent is proved for
    binary64 from the specification of the primitive floats ([SpecFloat]):
    rounding to nearest never crosses a float.  What needs exact arithmetic
    (the edge count of [np.arange]) is proved for the rationals, next to the
    floats on which it fails.

    The last part of the file goes through the cells once more: the
    entries of the arrays, the inputs on which the cells raise, and what
    holds of the cells in binary64 and without rounding. *)

From Stdlib Require Import ZArith QArith Qround Qfield Lqa Lia Bool List.
From Stdlib Require Import Floats.PrimFloat Floats.FloatOps Floats.SpecFloat.
From Stdlib Require Import Floats.FloatAxioms.
From stdpp Require Import base list.
Import ListNotations.

Set Default Proof Using "Type".

(** ** Results of code that may raise *)

(** The exceptions the embedded cells can raise: a subscript out of range
    ([x[1]] on a one-element array), numpy refusing to size an array
    ([np.arange] with a zero, infinite or undefined length), and a name
    that no cell binds ([colors] in [topo_cmap]). *)
Inductive PyError : Type :=
  | IndexError
  | ValueError
  | NameError.

Inductive result (E A : Type) : Type :=
  | Ok (a : A)
  | Err (e : E).

Arguments Ok {E A} a.
Arguments Err {E A} e.

Definition bind {E A B} (r : result E A) (k : A -> result E B) : result E B :=
  match r with
  | Ok a => k a
  | Err e => Err e
  end.

Declare Scope result_scope.
Delimit Scope result_scope with result.
Notation "x <- r ;; k" := (bind r (fun x => k))
  (at level 100, r at next level, right associativity) : result_scope.
Open Scope result_scope.

Fixpoint mapM {E A B} (f : A -> result E B) (l : list A) : result E (list B) :=
  match l with
  | [] => Ok []
  | a :: t => b <- f a ;; bs <- mapM f t ;; Ok (b :: bs)
  end.

(** ** The numbers of the notebook *)

(** What the cells ask of their scalars.  [num_half] is the literal [0.5];
    the literal [2.] is [num_of_Z 2].  [num_ceil] is the rounding up to an
    integer that [np.arange] uses to size its result; it is undefined on
    infinities and NaN. *)
Class Number (R : Type) : Type := {
  num_add : R -> R -> R;
  num_sub : R -> R -> R;
  num_mul : R -> R -> R;
  num_div : R -> R -> R;
  num_of_Z : Z -> R;
  num_half : R;
  num_ltb : R -> R -> bool;
  num_leb : R -> R -> bool;
  num_eqb : R -> R -> bool;
  num_ceil : R -> option Z
}.

Declare Scope num_scope.
Delimit Scope num_scope with num.
Infix "+" := num_add : num_scope.
Infix "-" := num_sub : num_scope.
Infix "*" := num_mul : num_scope.
Infix "/" := num_div : num_scope.

(** *** Exact arithmetic: the rationals *)

Definition Qltb (a b : Q) : bool := negb (Qle_bool b a).

#[export] Instance Q_number : Number Q := {|
  num_add := Qplus;
  num_sub := Qminus;
  num_mul := Qmult;
  num_div := Qdiv;
  num_of_Z := inject_Z;
  num_half := 1 # 2;
  num_ltb := Qltb;
  num_leb := Qle_bool;
  num_eqb := Qeq_bool;
  num_ceil := fun q => Some (Qceiling q)
|}.

(** *** IEEE binary64: the kernel's primitive floats *)

(** The integer a finite float rounds up to: the float is [±m * 2^e]. *)
Definition float_ceil (f : float) : option Z :=
  match Prim2SF f with
  | S754_zero _ => Some 0%Z
  | S754_finite s m e =>
      let z := if s then Z.neg m else Z.pos m in
      Some (if (0 <=? e)%Z then z * 2 ^ e else - ((- z) / 2 ^ (- e)))%Z
  | S754_infinity _ | S754_nan => None
  end.

(** An integer converted to the nearest float (ties to even).  Beyond the
    range of the floats this is an infinity, where Python refuses the
    conversion. *)
Definition float_of_Z (z : Z) : float :=
  SF2Prim (binary_normalize prec emax z 0 false).

#[export] Instance float_number : Number float := {|
  num_add := PrimFloat.add;
  num_sub := PrimFloat.sub;
  num_mul := PrimFloat.mul;
  num_div := PrimFloat.div;
  num_of_Z := float_of_Z;
  num_half := 0x1p-1%float;
  num_ltb := PrimFloat.ltb;
  num_leb := PrimFloat.leb;
  num_eqb := PrimFloat.eqb;
  num_ceil := float_ceil
|}.

(** ** numpy and Python primitives used by the cells *)

Section Arrays.
Context {R : Type} `{Number R}.

(** A 1-D array is a list; a 2-D array is the list of its rows. *)
Definition array2 : Type := list (list R).


(** [a[i]] for an integer [i]: negative indices count from the end, and an
    index outside [-len(a) .. len(a)-1] raises [IndexError]. *)
Definition getitem {A} (a : list A) (i : Z) : result PyError A :=
  let n := Z.of_nat (length a) in
  let j := if (i <? 0)%Z then (i + n)%Z else i in
  if ((0 <=? j)%Z && (j <? n)%Z)%bool then
    match a !! Z.to_nat j with
    | Some v => Ok v
    | None => Err IndexError
    end
  else Err IndexError.

(** [a[0,:]]: the first row. *)
Definition row0 {A} (a : list (list A)) : result PyError (list A) :=
  getitem a 0.

(** [a[:,0]]: the first entry of every row. *)
Definition col0 {A} (a : list (list A)) : result PyError (list A) :=
  mapM (fun r => getitem r 0) a.

(** [a[:-1,:-1]]: all but the last row and the last column. *)
Definition drop_last_row_col {A} (a : list (list A)) : list (list A) :=
  map (@removelast A) (removelast a).

(** [range(n)] as integers. *)
Definition range (n : nat) : list Z := map Z.of_nat (seq 0 n).

(** [np.arange(start, stop, step)] on floats.  numpy sizes the result as
    [ceil((stop - start)/step)] (empty when that is not positive, refused
    when the step is zero or the quotient is not finite) and fills it with
    [start], [start + step] and then [start + i*delta] where
    [delta = (start + step) - start].  The model puts no bound on the
    length: numpy also refuses a length beyond its largest index, and the
    machine one it cannot allocate. *)
Definition arange_fill (start step : R) (len : nat) : list R :=
  let next := (start + step)%num in
  let delta := (next - start)%num in
  map (fun i : Z =>
         if (i =? 0)%Z then start
         else if (i =? 1)%Z then next
         else (start + num_of_Z i * delta)%num)
      (range len).

Definition arange (start stop step : R) : result PyError (list R) :=
  if num_eqb step (num_of_Z 0) then Err ValueError
  else
    match num_ceil ((stop - start) / step)%num with
    | None => Err ValueError
    | Some len => Ok (arange_fill start step (Z.to_nat len))
    end.

(** [np.linspace(start, stop, num)]: [num] samples, [start + i*step] with
    [step = (stop - start)/(num - 1)], the last one set to [stop]. *)
Definition linspace (start stop : R) (num : nat) : list R :=
  match num with
  | O => []
  | 1%nat => [start]
  | S div =>
      let step := ((stop - start) / num_of_Z (Z.of_nat div))%num in
      map (fun i : Z => (num_of_Z i * step + start)%num) (range div) ++ [stop]
  end.

(** [np.meshgrid(x, y)]: both results have one row per [y] and one column
    per [x]; [X[i][j] = x[j]] and [Y[i][j] = y[i]]. *)
Definition meshgrid (x y : list R) : array2 * array2 :=
  (map (fun _ => x) y, map (fun yi => map (fun _ => yi) x) y).

(** [X + Y] for two arrays of one shape. *)
Definition add2 (X Y : array2) : array2 :=
  zip_with (zip_with num_add) X Y.
End Arrays.

(** ** The cells of the notebook *)

Section Notebook.
Context {R : Type} `{Number R}.

(** *** Cell 5: the sample data

    [X,Y = meshgrid(xcenter,ycenter); Z = X+Y]. *)
Record sample : Type := {
  sample_X : list (list R);
  sample_Y : list (list R);
  sample_Z : list (list R)
}.

Definition cell5 (xcenter ycenter : list R) : sample :=
  let (X, Y) := meshgrid xcenter ycenter in
  {| sample_X := X; sample_Y := Y; sample_Z := add2 X Y |}.

(** *** Cell 7: from centres to edges

    [dx=x[1]-x[0]; dy=y[1]-y[0]]: the spacing is read off the first two
    entries.  Python evaluates the left operand first. *)
Definition dx (x : list R) : result PyError R :=
  x1 <- getitem x 1 ;; x0 <- getitem x 0 ;; Ok (x1 - x0)%num.

Definition dy (y : list R) : result PyError R :=
  y1 <- getitem y 1 ;; y0 <- getitem y 0 ;; Ok (y1 - y0)%num.

(** [xedge = np.arange(x[0]-0.5*dx, x[-1]+dx, dx)]. *)
Definition xedge (x : list R) (dx : R) : result PyError (list R) :=
  x0 <- getitem x 0 ;;
  xl <- getitem x (-1) ;;
  arange (x0 - num_half * dx)%num (xl + dx)%num dx.

(** [yedge = np.arange(y[0]-0.5*dy, y[-1]+dy, dy)]. *)
Definition yedge (y : list R) (dy : R) : result PyError (list R) :=
  y0 <- getitem y 0 ;;
  yl <- getitem y (-1) ;;
  arange (y0 - num_half * dy)%num (yl + dy)%num dy.

Record edges : Type := {
  edges_x : list R;
  edges_y : list R
}.

(** The arithmetic of the cell on the 1-D centres, in statement order. *)
Definition cell7_edges (x y : list R) : result PyError edges :=
  dx_ <- dx x ;;
  dy_ <- dy y ;;
  xe <- xedge x dx_ ;;
  ye <- yedge y dy_ ;;
  Ok {| edges_x := xe; edges_y := ye |}.

(** The whole cell: [x = X[0,:]; y = Y[:,0]] and then the above. *)
Definition cell7 (X Y : list (list R)) : result PyError edges :=
  x <- row0 X ;;
  y <- col0 Y ;;
  cell7_edges x y.

(** *** Cell 24: the extent out to the cell edges

    The fields of the [Topography] object that the cell reads.
    [topo_delta] is the pair that the property [topo.delta] evaluates to:
    clawpack computes it from the coordinates, and a grid on which it
    raises is not a value of this record. *)
Record Topography : Type := {
  topo_x : list R;
  topo_y : list R;
  topo_delta : R * R
}.

(** [x1 = topo.x[0] - topo.delta[0]/2.; x2 = topo.x[-1] + topo.delta[0]/2.]
    [y1 = topo.y[0] - topo.delta[1]/2.; y2 = topo.y[-1] + topo.delta[1]/2.]
    [extent2 = [x1,x2,y1,y2]]. *)
Definition extent2 (topo : Topography) : result PyError (list R) :=
  let two := num_of_Z 2 in
  xa <- getitem (topo_x topo) 0 ;;
  let x1 := (xa - fst (topo_delta topo) / two)%num in
  xb <- getitem (topo_x topo) (-1) ;;
  let x2 := (xb + fst (topo_delta topo) / two)%num in
  ya <- getitem (topo_y topo) 0 ;;
  let y1 := (ya - snd (topo_delta topo) / two)%num in
  yb <- getitem (topo_y topo) (-1) ;;
  let y2 := (yb + snd (topo_delta topo) / two)%num in
  Ok [x1; x2; y1; y2].

(** The extent of a grid known by its centres alone: the spacing of
    cell 7 stands in for [topo.delta]. *)
Definition centers_extent (x y : list R) : result PyError (list R) :=
  dx_ <- dx x ;;
  dy_ <- dy y ;;
  extent2 {| topo_x := x; topo_y := y; topo_delta := (dx_, dy_) |}.
End Notebook.

Arguments sample : clear implicits.
Arguments edges : clear implicits.
Arguments Topography : clear implicits.

(** ** Further cells of the notebook *)

Section FurtherCells.
Context {R : Type} `{Number R}.

(** *** Cell 15: the bowl under the contour lines

    [Zbowl = (X-2)**2 + (Y-2)**2], entry by entry.  The integer [2] is
    converted to the type of the array, and numpy squares with one
    multiplication. *)
Definition sub_scalar (X : array2) (c : R) : array2 :=
  map (map (fun v => (v - c)%num)) X.

Definition square2 (X : array2) : array2 :=
  map (map (fun v => (v * v)%num)) X.

Definition Zbowl (X Y : array2) : array2 :=
  add2 (square2 (sub_scalar X (num_of_Z 2))) (square2 (sub_scalar Y (num_of_Z 2))).

(** The cell on the arrays of cell 5. *)
Definition cell15 (s : sample R) : array2 := Zbowl (sample_X s) (sample_Y s).

(** *** Cell 17: the colours of a topography plot

    The two colormaps that [topo_cmap] builds before it looks at its
    argument: [colormaps.make_colormap] of four colour stops, and
    matplotlib's [Blues_r]. *)
Inductive colormap : Type :=
  | cmap_land
  | cmap_water.

(** [colors.Normalize(vmin, vmax)], kept by its two arguments. *)
Record Normalize : Type := {
  vmin : R;
  vmax : R
}.

(** What [topo_cmap] is written to return: a colormap and a norm of its
    own making, or the pair that [colormaps.add_colormaps] makes of the
    arguments it is given, kept as the call. *)
Inductive topo_colors : Type :=
  | single (cmap : colormap) (norm : Normalize)
  | add_colormaps (maps : colormap * colormap) (data_limits : list R) (data_break : R).

(** The name [colors].  No cell binds it: cell 3 imports [colormaps],
    [plottools], [topotools] and [kmltools] by name and the rest with
    [from pylab import *], which brings [get_cmap] and no [colors].
    Evaluating the name raises [NameError]. *)
Definition colors : result PyError unit := Err NameError.

(** [topo_cmap(limits)].  [a >= b] is [b <= a]; the literal [0.0] is
    [num_of_Z 0].  The subscripts are evaluated where the function writes
    them, and [colors.Normalize(...)] looks [colors] up before it
    evaluates its arguments. *)
Definition topo_cmap (limits : list R) : result PyError topo_colors :=
  let topo_extent := limits in
  let data_break := num_of_Z 0 in
  lo <- getitem topo_extent 0 ;;
  if num_leb (num_of_Z 0) lo then
    colors_ <- colors ;;
    hi <- getitem topo_extent 1 ;;
    Ok (single cmap_land {| vmin := num_of_Z 0; vmax := hi |})
  else
    hi <- getitem topo_extent 1 ;;
    if num_leb hi (num_of_Z 0) then
      colors_ <- colors ;;
      lo' <- getitem topo_extent 0 ;;
      Ok (single cmap_water {| vmin := lo'; vmax := num_of_Z 0 |})
    else Ok (add_colormaps (cmap_land, cmap_water) topo_extent data_break).
End FurtherCells.

Arguments Normalize : clear implicits.
Arguments topo_colors : clear implicits.

(** ** What is not in the notebook *)




(** The errors of the spec's [compute_export_geometry]. *)
Inductive ExportError : Type :=
  | InvalidGrid
  | InvalidDensity.

Record ExportGeometry (R : Type) : Type := {
  pixel_width : Z;
  pixel_height : Z;
  dpi : R;
  bounding_box : list R
}.

Arguments pixel_width {R} _.
Arguments pixel_height {R} _.
Arguments dpi {R} _.
Arguments bounding_box {R} _.

(** Modelled from the spec: [compute_export_geometry], the pure part of
    [kmltools.pcolorcells_for_kml], whose body is not in the repository.
    Steps 1 and 2 (spacing, bounding box) are the notebook's own lines,
    [centers_extent]; a grid too short for them is an [InvalidGrid].  The
    pixel counts are [m * dpc] and [n * dpc], and the resolution is the
    pixel width over the figure width the caller picks. *)
Definition compute_export_geometry {R} `{Number R} (figure_width_in : R)
    (x_centers y_centers : list R) (dpc : Z)
    : result ExportError (ExportGeometry R) :=
  match centers_extent x_centers y_centers with
  | Err _ => Err InvalidGrid
  | Ok box =>
      if (dpc <=? 0)%Z then Err InvalidDensity
      else
        let width_px := (Z.of_nat (length x_centers) * dpc)%Z in
        let height_px := (Z.of_nat (length y_centers) * dpc)%Z in
        Ok {| pixel_width := width_px;
              pixel_height := height_px;
              dpi := (num_of_Z width_px / figure_width_in)%num;
              bounding_box := box |}
  end.

(** ** Vocabulary of the statements *)

Section Vocabulary.
Context {R : Type} `{Number R}.

(** Each entry is below the next one. *)
Fixpoint strictly_increasing (l : list R) : Prop :=
  match l with
  | a :: (b :: _) as t => num_ltb a b = true /\ strictly_increasing t
  | _ => True
  end.

(** Every step of the sequence, as the notebook computes it, is [d]. *)
Fixpoint evenly_spaced (d : R) (l : list R) : Prop :=
  match l with
  | a :: (b :: _) as t => num_eqb (b - a)%num d = true /\ evenly_spaced d t
  | _ => True
  end.

(** Uniform spacing: every step equals the first one. *)
Definition uniformly_spaced (l : list R) : Prop :=
  match l with
  | a :: b :: _ => evenly_spaced (b - a)%num l
  | _ => True
  end.

(** [lo] and [hi] are the outer edges of the cells centred on [c]: half a
    spacing below the first centre and half a spacing above the last one,
    as the notebook computes them.  [axis_enclosed] puts them strictly
    outside the outermost centres, [axis_bounded] not inside them. *)
Definition axis_enclosed (c : list R) (lo hi : R) : Prop :=
  exists c0 c1 cl,
    getitem c 0 = Ok c0 /\ getitem c 1 = Ok c1 /\ getitem c (-1) = Ok cl /\
    lo = (c0 - (c1 - c0) / num_of_Z 2)%num /\
    hi = (cl + (c1 - c0) / num_of_Z 2)%num /\
    num_ltb lo c0 = true /\ num_ltb c0 cl = true /\ num_ltb cl hi = true.

Definition axis_bounded (c : list R) (lo hi : R) : Prop :=
  exists c0 c1 cl,
    getitem c 0 = Ok c0 /\ getitem c 1 = Ok c1 /\ getitem c (-1) = Ok cl /\
    lo = (c0 - (c1 - c0) / num_of_Z 2)%num /\
    hi = (cl + (c1 - c0) / num_of_Z 2)%num /\
    num_leb lo c0 = true /\ num_ltb c0 cl = true /\ num_leb cl hi = true.

(** [e] has one entry more than [c], starts at [lo] and ends at [hi]. *)
Definition axis_edges_match (c e : list R) (lo hi : R) : Prop :=
  length e = S (length c) /\
  exists first_edge last_edge,
    head e = Some first_edge /\ last e = Some last_edge /\
    num_eqb first_edge lo = true /\ num_eqb last_edge hi = true.

(** The bounding box of the centres [x], [y] encloses them, axis by
    axis. *)
Definition extent_encloses_centers (x y : list R) : Prop :=
  exists xmin xmax ymin ymax,
    centers_extent x y = Ok [xmin; xmax; ymin; ymax] /\
    axis_enclosed x xmin xmax /\ axis_enclosed y ymin ymax.

(** The bounding box of the centres [x], [y] leaves none of them
    outside. *)
Definition extent_bounds_centers (x y : list R) : Prop :=
  exists xmin xmax ymin ymax,
    centers_extent x y = Ok [xmin; xmax; ymin; ymax] /\
    axis_bounded x xmin xmax /\ axis_bounded y ymin ymax.

(** The edges of cell 7 and the extent of cell 24 describe the same
    box, and there is one edge more than there are centres. *)
Definition edges_agree_with_extent (x y : list R) : Prop :=
  exists e x1 x2 y1 y2,
    cell7_edges x y = Ok e /\
    centers_extent x y = Ok [x1; x2; y1; y2] /\
    axis_edges_match x (edges_x e) x1 x2 /\
    axis_edges_match y (edges_y e) y1 y2.
End Vocabulary.

(** ** Vocabulary of binary64 rounding *)

Section RoundingVocabulary.
Local Open Scope Z_scope.

(** The exponent of the canonical form of a value between [2^(e-1)] and
    [2^e]: 53 bits of mantissa, and no exponent below [-1074]. *)
Definition fexp64 (e : Z) : Z := Z.max (e - 53) (-1074).

(** Whether bits were lost in shifting right. *)
Definition inexact (r : shr_record) : bool := shr_r r || shr_s r.

(** The value [m * 2^e] counted in units of [2^-1074], the smallest
    positive float: an integer for every exponent a float can have. *)
Definition units (m e : Z) : Z := m * 2 ^ (e + 1074).

(** A mantissa and exponent in canonical form. *)
Definition canonical (m e : Z) : Prop := 0 < m /\ fexp64 (Zdigits2 m + e) = e.

(** Floats compare as these triples do, lexicographically: the class
    (negative infinity, negative, zero, positive, positive infinity),
    then the exponent and the mantissa, both negated for negative
    floats. *)
Definition SF_rank (x : spec_float) : Z * (Z * Z) :=
  match x with
  | S754_infinity true => (-2, (0, 0))
  | S754_finite true m e => (-1, (- e, - Z.pos m))
  | S754_zero _ => (0, (0, 0))
  | S754_finite false m e => (1, (e, Z.pos m))
  | S754_infinity false => (2, (0, 0))
  | S754_nan => (3, (0, 0))
  end.

(** The lexicographic order of the triples. *)
Definition lex_lt (a b : Z * (Z * Z)) : Prop :=
  fst a < fst b \/
  (fst a = fst b /\
   (fst (snd a) < fst (snd b) \/
    (fst (snd a) = fst (snd b) /\ snd (snd a) < snd (snd b)))).

Definition lex_le (a b : Z * (Z * Z)) : Prop := lex_lt a b \/ a = b.

(** Not a number. *)
Definition SF_is_nan (x : spec_float) : bool :=
  match x with S754_nan => true | _ => false end.

(** Zero, a positive float or positive infinity. *)
Definition SF_nonneg (h : spec_float) : Prop :=
  match h with
  | S754_zero _ | S754_finite false _ _ | S754_infinity false => True
  | _ => False
  end.

(** The float [2.]. *)
Definition SF_two : spec_float := S754_finite false 4503599627370496 (-51).
End RoundingVocabulary.

(** ** Vocabulary of the further statements *)

(** [a[i][j]] where the 2-D array has such an entry. *)
Definition entry {A} (a : list (list A)) (i j : nat) : option A :=
  match a !! i with
  | Some r => r !! j
  | None => None
  end.

(** A float that is neither NaN nor an infinity. *)
Definition finite_float (v : float) : Prop :=
  PrimFloat.ltb neg_infinity v = true /\ PrimFloat.ltb v infinity = true.

(** A positive float or positive infinity. *)
Definition SF_pos (h : spec_float) : Prop :=
  match h with
  | S754_finite false _ _ | S754_infinity false => True
  | _ => False
  end.

(** The float [0.5]. *)
Definition SF_half : spec_float := S754_finite false 4503599627370496 (-53).

(** ** Inputs used in the examples *)

(** Cell 5: [xcenter = linspace(0.5,3.5,4)] and
    [ycenter = linspace(0.5,4.5,5)], as float64. *)
Definition xcenter : list float := linspace 0.5%float 3.5%float 4.
Definition ycenter : list float := linspace 0.5%float 4.5%float 5.

(** The same centres as rationals. *)
Definition xcenter_exact : list Q := [1 # 2; 3 # 2; 5 # 2; 7 # 2].
Definition ycenter_exact : list Q := [1 # 2; 3 # 2; 5 # 2; 7 # 2; 9 # 2].

(** The centres of [xcenter] with the third one moved: no longer uniform. *)
Definition xcenter_uneven : list float := [0.5; 1.5; 3.25; 3.5]%float.

(** Three consecutive floats above 1: [1 + 2^-51], [1 + 3 * 2^-52] and
    [1 + 2^-50], printed by Python as [1.0000000000000004],
    [1.0000000000000007] and [1.0000000000000009].  Their spacing is
    [2^-52], one unit in the last place. *)
Definition tight_centers : list float :=
  [0x1.0000000000002p+0; 0x1.0000000000003p+0; 0x1.0000000000004p+0]%float.

(** A topography on the centres of cell 5 with spacing [1.0], in binary64
    and in the rationals. *)
Definition sample_topo : Topography float :=
  {| topo_x := xcenter; topo_y := ycenter; topo_delta := (1, 1)%float |}.

Definition sample_topo_exact : Topography Q :=
  {| topo_x := xcenter_exact; topo_y := ycenter_exact; topo_delta := (1, 1)%Q |}.

(** * Properties *)

(** ** Subscripts *)

Section Subscripts.
Context {A : Type}.
Implicit Types (a : list A) (v : A).

Lemma getitem_nil (i : Z) : getitem (@nil A) i = Err IndexError.
Proof.
  unfold getitem; simpl.
  match goal with |- (if ?c then _ else _) = _ => destruct c; reflexivity end.
Qed.

Lemma getitem_first v a : getitem (v :: a) 0 = Ok v.
Proof.
  unfold getitem. cbn [length]. rewrite Nat2Z.inj_succ.
  change (0 <? 0)%Z with false. cbv iota.
  replace (0 <? Z.succ (Z.of_nat (length a)))%Z with true
    by (symmetry; apply Z.ltb_lt; lia).
  reflexivity.
Qed.

Lemma getitem_second v w a : getitem (v :: w :: a) 1 = Ok w.
Proof.
  unfold getitem. cbn [length]. rewrite !Nat2Z.inj_succ.
  change (1 <? 0)%Z with false. cbv iota.
  replace (1 <? Z.succ (Z.succ (Z.of_nat (length a))))%Z with true
    by (symmetry; apply Z.ltb_lt; lia).
  reflexivity.
Qed.

Lemma getitem_second_short v : getitem [v] 1 = Err IndexError.
Proof. reflexivity. Qed.

(** [a[-1]] is the last entry. *)
Lemma getitem_last a :
  getitem a (-1) = match last a with Some v => Ok v | None => Err IndexError end.
Proof.
  destruct a as [|v a]; [reflexivity|].
  unfold getitem. rewrite last_lookup.
  change (-1 <? 0)%Z with true. cbv iota.
  set (n := length (v :: a)).
  assert (Hn : (0 < n)%nat) by (subst n; simpl; lia).
  replace (0 <=? -1 + Z.of_nat n)%Z with true by (symmetry; apply Z.leb_le; lia).
  replace (-1 + Z.of_nat n <? Z.of_nat n)%Z with true
    by (symmetry; apply Z.ltb_lt; lia).
  replace (Z.to_nat (-1 + Z.of_nat n)) with (Nat.pred n) by lia.
  reflexivity.
Qed.

Lemma getitem_last_cons v a : exists w, getitem (v :: a) (-1) = Ok w.
Proof.
  rewrite getitem_last.
  destruct (last (v :: a)) as [w|] eqn:E; [eauto|].
  apply last_None in E. discriminate.
Qed.

(** A subscript raises nothing but [IndexError]. *)
Lemma getitem_error a i e : getitem a i = Err e -> e = IndexError.
Proof.
  unfold getitem.
  repeat match goal with
         | |- context [if ?b then _ else _] => destruct b
         | |- context [match ?o with Some _ => _ | None => _ end] => destruct o
         end; congruence.
Qed.
End Subscripts.

(** ** The spacing is read off the first pair *)

Section Spacing.
Context {R : Type} `{Number R}.
Implicit Types (x y : list R).

Lemma dx_cons a b x : dx (a :: b :: x) = Ok (b - a)%num.
Proof. unfold dx. rewrite getitem_second, getitem_first. reflexivity. Qed.

Lemma dy_cons a b y : dy (a :: b :: y) = Ok (b - a)%num.
Proof. unfold dy. rewrite getitem_second, getitem_first. reflexivity. Qed.

Lemma dx_short x : (length x < 2)%nat -> dx x = Err IndexError.
Proof.
  destruct x as [|a [|b x]]; simpl; intros; try lia.
  - unfold dx. rewrite getitem_nil. reflexivity.
  - reflexivity.
Qed.

Lemma dy_short y : (length y < 2)%nat -> dy y = Err IndexError.
Proof.
  destruct y as [|a [|b y]]; simpl; intros; try lia.
  - unfold dy. rewrite getitem_nil. reflexivity.
  - reflexivity.
Qed.

(** The extent of cell 24 is defined as soon as both axes are non-empty. *)
Lemma extent2_cons a x b y d :
  exists xl yl,
    getitem (a :: x) (-1) = Ok xl /\ getitem (b :: y) (-1) = Ok yl /\
    extent2 {| topo_x := a :: x; topo_y := b :: y; topo_delta := d |}
    = Ok [(a - fst d / num_of_Z 2)%num; (xl + fst d / num_of_Z 2)%num;
          (b - snd d / num_of_Z 2)%num; (yl + snd d / num_of_Z 2)%num].
Proof.
  destruct (getitem_last_cons a x) as [xl Hxl].
  destruct (getitem_last_cons b y) as [yl Hyl].
  exists xl, yl. split; [exact Hxl|]. split; [exact Hyl|].
  unfold extent2. cbn [topo_x topo_y topo_delta].
  rewrite !getitem_first, Hxl, Hyl. reflexivity.
Qed.

(** With two entries on each axis, the extent of the centres is the four
    numbers of cell 24 for the spacing of cell 7. *)
Lemma centers_extent_cons a1 a2 x b1 b2 y :
  exists xl yl,
    getitem (a1 :: a2 :: x) (-1) = Ok xl /\
    getitem (b1 :: b2 :: y) (-1) = Ok yl /\
    centers_extent (a1 :: a2 :: x) (b1 :: b2 :: y)
    = Ok [(a1 - (a2 - a1) / num_of_Z 2)%num; (xl + (a2 - a1) / num_of_Z 2)%num;
          (b1 - (b2 - b1) / num_of_Z 2)%num; (yl + (b2 - b1) / num_of_Z 2)%num].
Proof.
  destruct (extent2_cons a1 (a2 :: x) b1 (b2 :: y) ((a2 - a1)%num, (b2 - b1)%num))
    as (xl & yl & Hxl & Hyl & E).
  exists xl, yl. split; [exact Hxl|]. split; [exact Hyl|].
  unfold centers_extent. rewrite dx_cons, dy_cons. exact E.
Qed.

Lemma centers_extent_short x y :
  (length x < 2 \/ length y < 2)%nat -> centers_extent x y = Err IndexError.
Proof.
  intros Hs. unfold centers_extent.
  destruct (Nat.lt_ge_cases (length x) 2) as [Hx|Hx].
  - rewrite (dx_short x Hx). reflexivity.
  - destruct Hs as [Hs|Hy]; [lia|].
    destruct x as [|a1 [|a2 x]]; simpl in Hx; try lia.
    rewrite dx_cons, (dy_short y Hy). reflexivity.
Qed.

Lemma centers_extent_long x y :
  (2 <= length x)%nat -> (2 <= length y)%nat ->
  exists box, centers_extent x y = Ok box.
Proof.
  destruct x as [|a1 [|a2 x]]; simpl; try lia.
  destruct y as [|b1 [|b2 y]]; simpl; try lia.
  intros _ _.
  destruct (centers_extent_cons a1 a2 x b1 b2 y) as (xl & yl & _ & _ & E).
  eauto.
Qed.
End Spacing.

(** ** Which inputs make the cells raise *)

Section Failures.
Context {R : Type} `{Number R}.
Implicit Types (x y : list R).

Lemma arange_error (start stop step : R) e :
  arange start stop step = Err e -> e = ValueError.
Proof.
  unfold arange.
  destruct (num_eqb step (num_of_Z 0)); [congruence|].
  destruct (num_ceil _); congruence.
Qed.

Lemma xedge_cons_error a x d e : xedge (a :: x) d = Err e -> e = ValueError.
Proof.
  unfold xedge. rewrite getitem_first.
  destruct (getitem_last_cons a x) as [xl ->]. cbn [bind].
  apply arange_error.
Qed.

Lemma yedge_cons_error b y d e : yedge (b :: y) d = Err e -> e = ValueError.
Proof.
  unfold yedge. rewrite getitem_first.
  destruct (getitem_last_cons b y) as [yl ->]. cbn [bind].
  apply arange_error.
Qed.

Lemma short_unless_long {A} (x y : list A) :
  ((2 <= length x)%nat -> (2 <= length y)%nat -> False) ->
  (length x < 2 \/ length y < 2)%nat.
Proof. lia. Qed.

Lemma cell7_edges_short x y :
  (length x < 2 \/ length y < 2)%nat -> cell7_edges x y = Err IndexError.
Proof.
  intros Hs. unfold cell7_edges.
  destruct (Nat.lt_ge_cases (length x) 2) as [Hx|Hx].
  - rewrite (dx_short x Hx). reflexivity.
  - destruct Hs as [Hs|Hy]; [lia|].
    destruct x as [|a1 [|a2 x]]; simpl in Hx; try lia.
    rewrite dx_cons, (dy_short y Hy). reflexivity.
Qed.

Lemma cell7_edges_long x y :
  (2 <= length x)%nat -> (2 <= length y)%nat ->
  cell7_edges x y <> Err IndexError.
Proof.
  destruct x as [|a1 [|a2 x]]; simpl; try lia.
  destruct y as [|b1 [|b2 y]]; simpl; try lia.
  intros _ _. unfold cell7_edges. rewrite dx_cons, dy_cons. cbn [bind].
  destruct (xedge _ _) as [xe|e] eqn:Ex; cbn [bind].
  - destruct (yedge _ _) as [ye|e] eqn:Ey; cbn [bind]; [discriminate|].
    apply yedge_cons_error in Ey. congruence.
  - apply xedge_cons_error in Ex. congruence.
Qed.
End Failures.

(** ** The statements about the export geometry *)

Section Geometry.
Context {R : Type} `{Number R}.
Implicit Types (x y : list R) (dpc : Z).

(** C4.  The grid is refused exactly when an axis has fewer than two
    coordinates: the spacing line of cell 7, [dx=x[1]-x[0]; dy=y[1]-y[0]],
    raises [IndexError] at [x[1]] or [y[1]] for such grids and for no
    others, whether the cell goes on to the edges or to the extent.  One
    coordinate along x is the case [length x = 1]. *)
Theorem invalid_grid_iff_short_axis x y :
  (cell7_edges x y = Err IndexError <-> (length x < 2 \/ length y < 2)%nat) /\
  (centers_extent x y = Err IndexError <-> (length x < 2 \/ length y < 2)%nat).
Proof.
  split; (split; [intros E|intros Hs]).
  - apply short_unless_long. intros Hx Hy. exact (cell7_edges_long x y Hx Hy E).
  - exact (cell7_edges_short x y Hs).
  - apply short_unless_long. intros Hx Hy.
    destruct (centers_extent_long x y Hx Hy) as [box Hb]. congruence.
  - exact (centers_extent_short x y Hs).
Qed.

(** The export geometry reports the same grids as [InvalidGrid]. *)
Lemma export_geometry_invalid_grid (figure_width_in : R) x y dpc :
  compute_export_geometry figure_width_in x y dpc = Err InvalidGrid
  <-> (length x < 2 \/ length y < 2)%nat.
Proof.
  split; [intros E|intros Hs].
  - apply short_unless_long. intros Hx Hy.
    destruct (centers_extent_long x y Hx Hy) as [box Hb].
    unfold compute_export_geometry in E. rewrite Hb in E.
    destruct (dpc <=? 0)%Z; discriminate.
  - unfold compute_export_geometry.
    rewrite (centers_extent_short x y Hs). reflexivity.
Qed.

Lemma export_geometry_valid (figure_width_in : R) x y dpc :
  (2 <= length x)%nat -> (2 <= length y)%nat -> (0 < dpc)%Z ->
  exists box,
    centers_extent x y = Ok box /\
    compute_export_geometry figure_width_in x y dpc
    = Ok {| pixel_width := Z.of_nat (length x) * dpc;
            pixel_height := Z.of_nat (length y) * dpc;
            dpi := (num_of_Z (Z.of_nat (length x) * dpc) / figure_width_in)%num;
            bounding_box := box |}.
Proof.
  intros Hx Hy Hd.
  destruct (centers_extent_long x y Hx Hy) as [box Hb].
  exists box. split; [exact Hb|].
  unfold compute_export_geometry. rewrite Hb.
  replace (dpc <=? 0)%Z with false by (symmetry; apply Z.leb_gt; exact Hd).
  reflexivity.
Qed.

(** C1.  On a grid with at least two strictly increasing coordinates per
    axis and a positive density, the export geometry is returned and its
    pixel counts are the integers [m * dpc] and [n * dpc]. *)
Theorem pixel_dimensions_exact (figure_width_in : R) x y dpc :
  strictly_increasing x -> (2 <= length x)%nat ->
  strictly_increasing y -> (2 <= length y)%nat ->
  (0 < dpc)%Z ->
  exists g,
    compute_export_geometry figure_width_in x y dpc = Ok g /\
    pixel_width g = (Z.of_nat (length x) * dpc)%Z /\
    pixel_height g = (Z.of_nat (length y) * dpc)%Z.
Proof.
  intros _ Hx _ Hy Hd.
  destruct (export_geometry_valid figure_width_in x y dpc Hx Hy Hd)
    as (box & _ & E).
  eexists. split; [exact E|]. split; reflexivity.
Qed.

(** C6.  The spacing is read off the first pair and nothing checks the
    others: two grids that agree on the first two coordinates and the last
    one of each axis get the same spacing, the same edges and the same
    extent, whatever lies in between. *)
Theorem geometry_ignores_interior x x' y y' :
  getitem x 0 = getitem x' 0 -> getitem x 1 = getitem x' 1 ->
  getitem x (-1) = getitem x' (-1) ->
  getitem y 0 = getitem y' 0 -> getitem y 1 = getitem y' 1 ->
  getitem y (-1) = getitem y' (-1) ->
  dx x = dx x' /\ dy y = dy y' /\
  cell7_edges x y = cell7_edges x' y' /\
  centers_extent x y = centers_extent x' y'.
Proof.
  intros X0 X1 Xl Y0 Y1 Yl.
  assert (Edx : dx x = dx x') by (unfold dx; rewrite X0, X1; reflexivity).
  assert (Edy : dy y = dy y') by (unfold dy; rewrite Y0, Y1; reflexivity).
  repeat split; try assumption.
  - unfold cell7_edges, xedge, yedge.
    rewrite Edx, Edy, X0, Xl, Y0, Yl. reflexivity.
  - unfold centers_extent, extent2. cbn [topo_x topo_y topo_delta].
    rewrite Edx, Edy, X0, Xl, Y0, Yl. reflexivity.
Qed.

(** The export geometry needs the lengths and the extent, and so is the
    same for two such grids. *)
Lemma export_geometry_same_extent (figure_width_in : R) x x' y y' dpc :
  length x = length x' -> length y = length y' ->
  centers_extent x y = centers_extent x' y' ->
  compute_export_geometry figure_width_in x y dpc
  = compute_export_geometry figure_width_in x' y' dpc.
Proof.
  intros Lx Ly Ext. unfold compute_export_geometry.
  rewrite Ext, Lx, Ly. reflexivity.
Qed.
End Geometry.

(** ** Arithmetic without rounding *)

Section Exact.
Local Open Scope Q_scope.
Implicit Types (a b d v : Q) (l x y : list Q).

Lemma Qltb_lt a b : Qltb a b = true <-> a < b.
Proof.
  unfold Qltb. rewrite negb_true_iff, <- not_true_iff_false, Qle_bool_iff.
  split; [apply Qnot_le_lt | apply Qlt_not_le].
Qed.

Lemma Q_ltb_lt a b : num_ltb a b = true <-> a < b.
Proof. exact (Qltb_lt a b). Qed.

Lemma Q_eqb_eq a b : num_eqb a b = true <-> a == b.
Proof. exact (Qeq_bool_iff a b). Qed.

(** What the predicates of the statements say over the rationals. *)
Lemma axis_enclosed_exact x lo hi :
  axis_enclosed x lo hi <->
  exists c0 c1 cl,
    getitem x 0 = Ok c0 /\ getitem x 1 = Ok c1 /\ getitem x (-1) = Ok cl /\
    lo = c0 - (c1 - c0) / 2 /\ hi = cl + (c1 - c0) / 2 /\
    lo < c0 /\ c0 < cl /\ cl < hi.
Proof.
  unfold axis_enclosed.
  split; intros (c0 & c1 & cl & G0 & G1 & Gl & E1 & E2 & L1 & L2 & L3);
    exists c0, c1, cl; repeat split; try assumption;
    apply Q_ltb_lt; assumption.
Qed.

(** A strictly increasing sequence ends above where it starts. *)
Lemma strictly_increasing_last a l v :
  strictly_increasing (a :: l) -> last (a :: l) = Some v ->
  a <= v /\ (l <> [] -> a < v).
Proof.
  revert a. induction l as [|b l IH]; intros a Hs Hl.
  - simpl in Hl. injection Hl as <-. split; [apply Qle_refl | congruence].
  - destruct Hs as [Hab Hs]. apply Q_ltb_lt in Hab.
    change (last (a :: b :: l)) with (last (b :: l)) in Hl.
    destruct (IH b Hs Hl) as [Hbv _].
    split; [|intros _]; lra.
Qed.

(** An evenly spaced sequence ends [length - 1] steps after its start. *)
Lemma evenly_spaced_last d a l v :
  evenly_spaced d (a :: l) -> last (a :: l) = Some v ->
  v == a + inject_Z (Z.of_nat (length l)) * d.
Proof.
  revert a. induction l as [|b l IH]; intros a Hs Hl.
  - simpl in Hl. injection Hl as <-. simpl. ring.
  - destruct Hs as [Hab Hs]. apply Q_eqb_eq in Hab.
    change (last (a :: b :: l)) with (last (b :: l)) in Hl.
    rewrite (IH b Hs Hl).
    cbn [length]. rewrite Nat2Z.inj_succ. unfold Z.succ.
    rewrite inject_Z_plus. change (b - a == d) in Hab.
    change (inject_Z 1) with 1. lra.
Qed.

(** The integer just above [n + 1/2]. *)
Lemma Qceiling_half (n : Z) q : q == inject_Z n + (1 # 2) -> Qceiling q = (n + 1)%Z.
Proof.
  intros Hq.
  pose proof (Qle_ceiling q) as Hup.
  pose proof (Qceiling_lt q) as Hlo.
  set (c := Qceiling q) in *.
  assert (H1 : inject_Z n < inject_Z c).
  { revert Hq Hup. generalize (inject_Z n) (inject_Z c). intros; lra. }
  assert (H2 : inject_Z (c - 1) < inject_Z (n + 1)).
  { rewrite (inject_Z_plus n 1). change (inject_Z 1) with 1.
    revert Hq Hlo. generalize (inject_Z n) (inject_Z (c - 1)). intros; lra. }
  rewrite <- Zlt_Qlt in H1, H2. lia.
Qed.
End Exact.

(** ** The extent of cell 24 around the centres *)

Lemma getitem_last_inv {A} (a : list A) v : getitem a (-1) = Ok v -> last a = Some v.
Proof. rewrite getitem_last. destruct (last a); congruence. Qed.

(** The returned bounding box is the extent of the centres. *)
Lemma export_geometry_box {R} `{Number R} (figure_width_in : R) x y dpc g :
  compute_export_geometry figure_width_in x y dpc = Ok g ->
  centers_extent x y = Ok (bounding_box g).
Proof.
  unfold compute_export_geometry. destruct (centers_extent x y); [|discriminate].
  destruct (dpc <=? 0)%Z; [discriminate|].
  intros [= <-]. reflexivity.
Qed.

Section ExactExtent.
Local Open Scope Q_scope.
Implicit Types (a b d v : Q) (l x y : list Q).

Lemma Qhalf d : d / 2 == d * (1 # 2).
Proof. reflexivity. Qed.

Lemma axis_enclosed_centers a1 a2 l cl :
  strictly_increasing (a1 :: a2 :: l) ->
  getitem (a1 :: a2 :: l) (-1) = Ok cl ->
  axis_enclosed (a1 :: a2 :: l)
    (a1 - (a2 - a1) / num_of_Z 2)%num (cl + (a2 - a1) / num_of_Z 2)%num.
Proof.
  intros Hs Hl. apply axis_enclosed_exact.
  exists a1, a2, cl.
  split; [apply getitem_first|]. split; [apply getitem_second|].
  split; [exact Hl|].
  destruct (strictly_increasing_last a1 (a2 :: l) cl Hs (getitem_last_inv _ _ Hl))
    as [_ Hlt].
  specialize (Hlt ltac:(discriminate)).
  destruct Hs as [H12 _]. apply Q_ltb_lt in H12.
  change (num_of_Z 2) with 2. cbn [num_sub num_add num_div Q_number].
  split; [reflexivity|]. split; [reflexivity|].
  rewrite !Qhalf.
  repeat split; lra.
Qed.

(** Without rounding the box of C2 is strictly outside the outermost
    centres: for strictly increasing rational centres, two or more per
    axis, [x_min < x[0] < x[-1] < x_max]. *)
Lemma extent_encloses_centers_exact x y :
  strictly_increasing x -> (2 <= length x)%nat ->
  strictly_increasing y -> (2 <= length y)%nat ->
  extent_encloses_centers x y.
Proof.
  intros Hsx Hx Hsy Hy.
  destruct x as [|a1 [|a2 x]]; simpl in Hx; try lia.
  destruct y as [|b1 [|b2 y]]; simpl in Hy; try lia.
  destruct (centers_extent_cons a1 a2 x b1 b2 y) as (xl & yl & Hxl & Hyl & E).
  unfold extent_encloses_centers. do 4 eexists.
  split; [exact E|].
  split; apply axis_enclosed_centers; assumption.
Qed.
End ExactExtent.

(** ** The edges of cell 7 *)

Section Fill.
Context {R : Type} `{Number R}.

Lemma range_length n : length (range n) = n.
Proof. unfold range. rewrite length_map. apply length_seq. Qed.

Lemma range_snoc n : range (S n) = range n ++ [Z.of_nat n].
Proof. unfold range. rewrite seq_S, map_app. reflexivity. Qed.

Lemma arange_fill_length (start step : R) n :
  length (arange_fill start step n) = n.
Proof. unfold arange_fill. rewrite length_map. apply range_length. Qed.

Lemma arange_fill_head (start step : R) n :
  head (arange_fill start step (S n)) = Some start.
Proof. reflexivity. Qed.

(** From the third entry on, numpy steps by [delta = (start + step) - start]. *)
Lemma arange_fill_last (start step : R) n :
  (2 <= n)%nat ->
  last (arange_fill start step (S n))
  = Some (start + num_of_Z (Z.of_nat n) * ((start + step) - start))%num.
Proof.
  intros Hn. unfold arange_fill. rewrite range_snoc, map_app. cbn [map].
  rewrite last_snoc.
  replace (Z.of_nat n =? 0)%Z with false by (symmetry; apply Z.eqb_neq; lia).
  replace (Z.of_nat n =? 1)%Z with false by (symmetry; apply Z.eqb_neq; lia).
  reflexivity.
Qed.

Lemma yedge_is_xedge (y : list R) d : yedge y d = xedge y d.
Proof. reflexivity. Qed.
End Fill.

Section ExactEdges.
Local Open Scope Q_scope.
Implicit Types (a b d v : Q) (l x y : list Q).

Lemma arange_exact (start stop step : Q) :
  ~ step == 0 ->
  arange start stop step
  = Ok (arange_fill start step (Z.to_nat (Qceiling ((stop - start) / step)))).
Proof.
  intros Hs. unfold arange. cbn [num_eqb num_ceil num_of_Z Q_number].
  destruct (Qeq_bool step (inject_Z 0)) eqn:E; [|reflexivity].
  apply Qeq_bool_iff in E. contradiction.
Qed.

(** On uniformly spaced, strictly increasing centres the edges of cell 7
    are one more than the centres, from half a step below the first centre
    to half a step above the last one. *)
Lemma xedge_exact a1 a2 l cl :
  strictly_increasing (a1 :: a2 :: l) ->
  uniformly_spaced (a1 :: a2 :: l) ->
  getitem (a1 :: a2 :: l) (-1) = Ok cl ->
  exists e,
    xedge (a1 :: a2 :: l) (a2 - a1)%num = Ok e /\
    axis_edges_match (a1 :: a2 :: l) e
      (a1 - (a2 - a1) / num_of_Z 2)%num (cl + (a2 - a1) / num_of_Z 2)%num.
Proof.
  intros Hs Hu Hl.
  pose proof Hs as [H12 _]. apply Q_ltb_lt in H12.
  pose proof (evenly_spaced_last _ a1 (a2 :: l) cl Hu (getitem_last_inv _ _ Hl)) as Hcl.
  set (k := length (a2 :: l)) in *.
  assert (Hk : (1 <= k)%nat) by (subst k; simpl; lia).
  cbn [num_sub num_add num_div num_of_Z Q_number] in *.
  set (d := a2 - a1) in *.
  assert (Hd : 0 < d) by (subst d; lra).
  assert (Hlen : Qceiling ((cl + d - (a1 - (1 # 2) * d)) / d) = (Z.of_nat k + 1 + 1)%Z).
  { apply Qceiling_half. rewrite Hcl, inject_Z_plus. change (inject_Z 1) with 1.
    field. lra. }
  unfold xedge. rewrite getitem_first, Hl. cbn [bind].
  cbn [num_sub num_add num_mul num_half Q_number].
  rewrite arange_exact by lra. fold d. rewrite Hlen.
  replace (Z.to_nat (Z.of_nat k + 1 + 1)) with (S (S k)) by lia.
  eexists. split; [reflexivity|].
  split; [rewrite arange_fill_length; reflexivity|].
  do 2 eexists.
  split; [apply arange_fill_head|].
  split; [apply arange_fill_last; lia|].
  cbn [num_sub num_add num_mul num_div num_of_Z num_eqb Q_number].
  split; apply Qeq_bool_iff.
  - change (inject_Z 2) with 2. rewrite Qhalf. ring.
  - change (inject_Z 2) with 2. rewrite Qhalf, Hcl.
    rewrite Nat2Z.inj_succ. unfold Z.succ. rewrite inject_Z_plus.
    change (inject_Z 1) with 1. ring.
Qed.

(** C10, amended: in arithmetic without rounding, on uniformly spaced,
    strictly increasing centres with two or more per axis, the edge arrays
    of cell 7 start and end on the extent that cell 24 computes from the
    centres and the spacing, and each has one entry more than its
    centres. *)
Theorem edges_agree_with_extent_exact x y :
  strictly_increasing x -> uniformly_spaced x -> (2 <= length x)%nat ->
  strictly_increasing y -> uniformly_spaced y -> (2 <= length y)%nat ->
  edges_agree_with_extent x y.
Proof.
  intros Hsx Hux Hx Hsy Huy Hy.
  destruct x as [|a1 [|a2 x]]; simpl in Hx; try lia.
  destruct y as [|b1 [|b2 y]]; simpl in Hy; try lia.
  destruct (centers_extent_cons a1 a2 x b1 b2 y) as (xl & yl & Hxl & Hyl & E).
  destruct (xedge_exact a1 a2 x xl Hsx Hux Hxl) as (xe & Exe & Mx).
  destruct (xedge_exact b1 b2 y yl Hsy Huy Hyl) as (ye & Eye & My).
  unfold edges_agree_with_extent.
  exists {| edges_x := xe; edges_y := ye |}. do 4 eexists.
  split; [|split; [exact E|split; [exact Mx|exact My]]].
  unfold cell7_edges. rewrite dx_cons, dy_cons. cbn [bind].
  rewrite Exe. cbn [bind]. rewrite yedge_is_xedge, Eye. reflexivity.
Qed.
End ExactEdges.

(** ** The shapes handed to pcolorcells *)

Section Shapes.
Context {R : Type} `{Number R}.
Implicit Types (x y : list R).







End Shapes.



Section Rounding.
Local Open Scope Z_scope.

(** ** Binary64 rounding never crosses a float *)

Lemma fexp64_eq e : SpecFloat.fexp prec emax e = fexp64 e.
Proof. reflexivity. Qed.

Lemma fexp64_mono a b : a <= b -> fexp64 a <= fexp64 b.
Proof. unfold fexp64. lia. Qed.

(** *** Binary digits *)

Lemma digits2_pos_bounds (p : positive) :
  2 ^ (Z.pos (digits2_pos p) - 1) <= Z.pos p < 2 ^ Z.pos (digits2_pos p).
Proof.
  induction p as [p IH|p IH|]; cbn [digits2_pos].
  - rewrite Pos2Z.inj_succ.
    replace (Z.succ (Z.pos (digits2_pos p)) - 1) with (Z.succ (Z.pos (digits2_pos p) - 1)) by lia.
    rewrite !Z.pow_succ_r by lia. lia.
  - rewrite Pos2Z.inj_succ.
    replace (Z.succ (Z.pos (digits2_pos p)) - 1) with (Z.succ (Z.pos (digits2_pos p) - 1)) by lia.
    rewrite !Z.pow_succ_r by lia. lia.
  - cbn. lia.
Qed.

(** The number of binary digits is the only [d] with [2^(d-1) <= n < 2^d]. *)
Lemma digits2_pos_unique (p : positive) (d : Z) :
  2 ^ (d - 1) <= Z.pos p < 2 ^ d -> Z.pos (digits2_pos p) = d.
Proof.
  intros [Hlo Hhi].
  destruct (digits2_pos_bounds p) as [Blo Bhi].
  set (k := Z.pos (digits2_pos p)) in *.
  assert (Hk : 0 < k) by (subst k; lia).
  assert (Hd : 0 < d).
  { destruct (Z.lt_ge_cases 0 d) as [|Hd]; [assumption|].
    rewrite (Z.pow_neg_r 2 (d - 1)) in Hlo by lia.
    destruct (Z.eq_dec d 0) as [->|]; [cbn in Hhi; lia|].
    rewrite (Z.pow_neg_r 2 d) in Hhi by lia. lia. }
  destruct (Z.lt_trichotomy k d) as [Hlt|[Heq|Hgt]]; [|assumption|].
  - assert (2 ^ k <= 2 ^ (d - 1)) by (apply Z.pow_le_mono_r; lia). lia.
  - assert (2 ^ d <= 2 ^ (k - 1)) by (apply Z.pow_le_mono_r; lia). lia.
Qed.

(** *** Shifting right *)

Lemma shr_1_m (r : shr_record) : 0 <= shr_m r -> shr_m (shr_1 r) = shr_m r / 2.
Proof.
  destruct r as [m rb sb]. cbn [shr_m]. intros Hm.
  destruct m as [|[p|p|]|p]; cbn [shr_1 shr_m].
  - reflexivity.
  - rewrite Pos2Z.inj_xI. apply (Z.div_unique _ 2 _ 1); lia.
  - rewrite Pos2Z.inj_xO. apply (Z.div_unique _ 2 _ 0); lia.
  - reflexivity.
  - lia.
Qed.

Lemma shr_1_inexact (r : shr_record) :
  0 <= shr_m r -> inexact (shr_1 r) = Z.odd (shr_m r) || inexact r.
Proof.
  destruct r as [m rb sb]. unfold inexact. cbn [shr_m shr_r shr_s]. intros Hm.
  destruct m as [|[p|p|]|p]; cbn [shr_1 shr_r shr_s Z.odd]; try lia;
    destruct rb, sb; reflexivity.
Qed.

Lemma iter_pos_nat {A} (f : A -> A) (p : positive) (x : A) :
  SpecFloat.iter_pos f p x = Nat.iter (Pos.to_nat p) f x.
Proof.
  revert x. induction p as [p IH|p IH|]; intros x; cbn [SpecFloat.iter_pos].
  - rewrite !IH, Pos2Nat.inj_xI.
    replace (S (2 * Pos.to_nat p))%nat with (Pos.to_nat p + (Pos.to_nat p + 1))%nat by lia.
    rewrite !Nat.iter_add. reflexivity.
  - rewrite !IH, Pos2Nat.inj_xO.
    replace (2 * Pos.to_nat p)%nat with (Pos.to_nat p + Pos.to_nat p)%nat by lia.
    rewrite Nat.iter_add. reflexivity.
  - reflexivity.
Qed.

Lemma shr_nat (n : nat) (r : shr_record) :
  0 <= shr_m r ->
  0 <= shr_m (Nat.iter n shr_1 r) /\
  shr_m (Nat.iter n shr_1 r) = shr_m r / 2 ^ Z.of_nat n /\
  (inexact (Nat.iter n shr_1 r) = false <->
   inexact r = false /\ shr_m r mod 2 ^ Z.of_nat n = 0).
Proof.
  intros Hm. induction n as [|n (IH0 & IH1 & IH2)].
  - cbn [Nat.iter Z.of_nat]. rewrite Z.pow_0_r, Z.div_1_r, Z.mod_1_r. tauto.
  - change (Nat.iter (S n) shr_1 r) with (shr_1 (Nat.iter n shr_1 r)).
    rewrite shr_1_m, shr_1_inexact by assumption.
    rewrite Nat2Z.inj_succ, Z.pow_succ_r by lia.
    set (q := 2 ^ Z.of_nat n) in *.
    assert (Hq : 0 < q) by (subst q; apply Z.pow_pos_nonneg; lia).
    rewrite IH1.
    assert (Hdiv : shr_m r / q / 2 = shr_m r / (2 * q)).
    { rewrite Z.div_div by lia. f_equal. lia. }
    split; [apply Z.div_pos; [apply Z.div_pos|]; lia|].
    split; [exact Hdiv|].
    rewrite orb_false_iff, IH2.
    pose proof (Z.div_mod (shr_m r) q ltac:(lia)) as E1.
    pose proof (Z.mod_pos_bound (shr_m r) q Hq) as B1.
    pose proof (Z.div_mod (shr_m r / q) 2 ltac:(lia)) as E2.
    pose proof (Z.mod_pos_bound (shr_m r / q) 2 ltac:(lia)) as B2.
    pose proof (Z.div_mod (shr_m r) (2 * q) ltac:(lia)) as E3.
    pose proof (Z.mod_pos_bound (shr_m r) (2 * q) ltac:(lia)) as B3.
    rewrite <- Hdiv in E3.
    rewrite <- Z.negb_even, negb_false_iff, Z.even_spec.
    assert (Hev : Z.Even (shr_m r / q) <-> (shr_m r / q) mod 2 = 0).
    { rewrite <- Z.even_spec, Zeven_mod. apply Z.eqb_eq. }
    rewrite Hev.
    set (a := shr_m r / q) in *. set (b := shr_m r mod q) in *.
    set (c := a / 2) in *. set (d := a mod 2) in *.
    set (e := shr_m r mod (2 * q)) in *.
    assert (He : e = q * d + b) by lia.
    assert (Hd : d = 0 \/ d = 1) by lia.
    destruct Hd as [Hd|Hd]; rewrite Hd in *; intuition lia.
Qed.

(** *** Powers of two *)

Lemma pow2_pos k : 0 <= k -> 0 < 2 ^ k.
Proof. intros. apply Z.pow_pos_nonneg; lia. Qed.

Lemma pow2_split a b : 0 <= a -> 0 <= b -> 2 ^ (a + b) = 2 ^ a * 2 ^ b.
Proof. intros. apply Z.pow_add_r; lia. Qed.

Lemma pow2_le a b : 0 <= a <= b -> 2 ^ a <= 2 ^ b.
Proof. intros. apply Z.pow_le_mono_r; lia. Qed.

(** *** Digits of integers *)

Lemma Zdigits2_bounds m : 0 < m -> 2 ^ (Zdigits2 m - 1) <= m < 2 ^ Zdigits2 m.
Proof. destruct m as [|p|p]; try lia. intros _. apply digits2_pos_bounds. Qed.

Lemma Zdigits2_pos m : 0 < m -> 0 < Zdigits2 m.
Proof. destruct m as [|p|p]; cbn; lia. Qed.

Lemma Zdigits2_unique m d : 2 ^ (d - 1) <= m < 2 ^ d -> 0 < m -> Zdigits2 m = d.
Proof.
  destruct m as [|p|p]; try lia. intros H _. apply digits2_pos_unique. exact H.
Qed.

Lemma Zdigits2_mono a b : 0 < a <= b -> Zdigits2 a <= Zdigits2 b.
Proof.
  intros [Ha Hab].
  pose proof (Zdigits2_bounds a Ha) as [La Ua].
  pose proof (Zdigits2_bounds b ltac:(lia)) as [Lb Ub].
  pose proof (Zdigits2_pos a Ha). pose proof (Zdigits2_pos b ltac:(lia)).
  destruct (Z.le_gt_cases (Zdigits2 a) (Zdigits2 b)) as [|Hgt]; [assumption|].
  assert (2 ^ Zdigits2 b <= 2 ^ (Zdigits2 a - 1)) by (apply pow2_le; lia). lia.
Qed.

Lemma Zdigits2_shift m k : 0 < m -> 0 <= k -> Zdigits2 (m * 2 ^ k) = Zdigits2 m + k.
Proof.
  intros Hm Hk.
  pose proof (Zdigits2_bounds m Hm) as [L U]. pose proof (Zdigits2_pos m Hm).
  pose proof (pow2_pos k Hk).
  apply Zdigits2_unique; [|nia].
  replace (Zdigits2 m + k - 1) with (Zdigits2 m - 1 + k) by lia.
  rewrite !pow2_split by lia. nia.
Qed.

Lemma Zdigits2_div m n :
  0 < m -> 0 <= n < Zdigits2 m -> Zdigits2 (m / 2 ^ n) = Zdigits2 m - n /\ 0 < m / 2 ^ n.
Proof.
  intros Hm Hn.
  pose proof (Zdigits2_bounds m Hm) as [L U].
  pose proof (pow2_pos n ltac:(lia)) as Hp.
  assert (E1 : 2 ^ (Zdigits2 m - 1) = 2 ^ (Zdigits2 m - n - 1) * 2 ^ n).
  { rewrite <- pow2_split by lia. f_equal. lia. }
  assert (E2 : 2 ^ Zdigits2 m = 2 ^ (Zdigits2 m - n) * 2 ^ n).
  { rewrite <- pow2_split by lia. f_equal. lia. }
  assert (Lq : 2 ^ (Zdigits2 m - n - 1) <= m / 2 ^ n).
  { apply Z.div_le_lower_bound; lia. }
  assert (Uq : m / 2 ^ n < 2 ^ (Zdigits2 m - n)).
  { apply Z.div_lt_upper_bound; lia. }
  pose proof (pow2_pos (Zdigits2 m - n - 1) ltac:(lia)).
  split; [|lia].
  apply Zdigits2_unique; [|lia]. split; [exact Lq|exact Uq].
Qed.

(** *** The two alignments of [binary_round] *)

Lemma Pos_iter_xO (m d : positive) : Z.pos (Pos.iter xO m d) = Z.pos m * 2 ^ Z.pos d.
Proof.
  induction d as [|d IH] using Pos.peano_ind.
  - cbn. lia.
  - rewrite Pos.iter_succ, Pos2Z.inj_xO, IH, Pos2Z.inj_succ, Z.pow_succ_r by lia. lia.
Qed.

Lemma shl_align_spec (mx : positive) (ex ex' : Z) :
  snd (shl_align mx ex ex') = Z.min ex ex' /\
  Z.pos (fst (shl_align mx ex ex')) = Z.pos mx * 2 ^ (ex - Z.min ex ex').
Proof.
  unfold shl_align. destruct (ex' - ex) as [|d|d] eqn:E; cbn [fst snd].
  - replace (Z.min ex ex') with ex by lia. rewrite Z.sub_diag. cbn. lia.
  - replace (Z.min ex ex') with ex by lia. rewrite Z.sub_diag. cbn. lia.
  - replace (Z.min ex ex') with ex' by lia. rewrite Pos_iter_xO.
    split; [reflexivity|]. do 2 f_equal. lia.
Qed.

Lemma shr_spec (m e n : Z) :
  0 <= m ->
  let res := shr (shr_record_of_loc m loc_Exact) e n in
  snd res = e + Z.max n 0 /\
  0 <= shr_m (fst res) /\
  shr_m (fst res) = m / 2 ^ Z.max n 0 /\
  (inexact (fst res) = false <-> m mod 2 ^ Z.max n 0 = 0).
Proof.
  intros Hm. unfold shr. cbn [shr_record_of_loc].
  destruct n as [|p|p]; cbn [fst snd].
  - cbn [shr_m]. rewrite Z.max_l, Z.pow_0_r, Z.div_1_r, Z.mod_1_r by lia.
    unfold inexact. cbn. intuition lia.
  - rewrite iter_pos_nat.
    destruct (shr_nat (Pos.to_nat p) {| shr_m := m; shr_r := false; shr_s := false |} Hm)
      as (H0 & H1 & H2).
    rewrite positive_nat_Z in H1, H2. rewrite Z.max_l by lia.
    cbn [shr_m] in *. unfold inexact at 2 in H2. cbn [shr_r shr_s orb] in H2.
    intuition lia.
  - cbn [shr_m]. rewrite Z.max_r, Z.pow_0_r, Z.div_1_r, Z.mod_1_r by lia.
    unfold inexact. cbn. intuition lia.
Qed.

Lemma round_nearest_even_spec (r : shr_record) :
  let m2 := round_nearest_even (shr_m r) (loc_of_shr_record r) in
  shr_m r <= m2 <= shr_m r + 1 /\ (inexact r = false -> m2 = shr_m r).
Proof.
  destruct r as [m [|] [|]]; unfold inexact; cbn [shr_m shr_r shr_s loc_of_shr_record round_nearest_even orb];
    try destruct (Z.even m); split; try lia; try discriminate.
Qed.

(** *** What [binary_round] returns *)

Lemma shr_fexp_spec (m e : Z) :
  0 < m ->
  let n := Z.max (fexp64 (Zdigits2 m + e) - e) 0 in
  let res := shr_fexp prec emax m e loc_Exact in
  snd res = e + n /\
  shr_m (fst res) = m / 2 ^ n /\
  0 <= shr_m (fst res) /\
  (inexact (fst res) = false <-> m mod 2 ^ n = 0).
Proof.
  intros Hm n res.
  destruct (shr_spec m e (fexp64 (Zdigits2 m + e) - e) ltac:(lia)) as (H1 & H2 & H3 & H4).
  subst res n. unfold shr_fexp. rewrite fexp64_eq.
  repeat split; try assumption; apply H4.
Qed.

Lemma second_shift (d1 d2 f : Z) :
  f = fexp64 (d1 + f) -> d1 <= d2 <= d1 + 1 ->
  Z.max (fexp64 (d2 + f) - f) 0 = fexp64 (d2 + f) - f /\
  0 <= Z.max (fexp64 (d2 + f) - f) 0 <= 1 /\
  (Z.max (fexp64 (d2 + f) - f) 0 = 1 -> d2 = d1 + 1).
Proof. unfold fexp64. lia. Qed.

(** Rounding a positive integer [m0 * 2^e0] whose exponent is not above the
    canonical one.  The result is [m3 * 2^e3], canonical, equal to
    [m2 * 2^f], where [m2] is the truncated mantissa or its successor. *)
Lemma binary_round_aux_spec (s : bool) (m0 e0 : Z) :
  0 < m0 ->
  let f := fexp64 (Zdigits2 m0 + e0) in
  e0 <= f -> -1074 < Zdigits2 m0 + e0 ->
  exists m2 m3 e3,
    m0 / 2 ^ (f - e0) <= m2 <= m0 / 2 ^ (f - e0) + 1 /\
    (m0 mod 2 ^ (f - e0) = 0 -> m2 = m0 / 2 ^ (f - e0)) /\
    0 < m0 / 2 ^ (f - e0) /\
    0 < m3 /\ f <= e3 /\ m3 * 2 ^ (e3 - f) = m2 /\
    fexp64 (Zdigits2 m3 + e3) = e3 /\
    binary_round_aux prec emax s m0 e0 loc_Exact
    = if e3 <=? 971 then S754_finite s (Z.to_pos m3) e3 else S754_infinity s.
Proof.
  intros Hm f Hf HD.
  set (n := f - e0). assert (Hn : 0 <= n) by (subst n; lia).
  pose proof (Zdigits2_pos m0 Hm) as Hd0.
  assert (Hnd : n < Zdigits2 m0) by (subst n f; unfold fexp64; lia).
  destruct (Zdigits2_div m0 n Hm ltac:(lia)) as [Hd1 Hm1].
  set (m1 := m0 / 2 ^ n) in *.
  (* first alignment *)
  destruct (shr_fexp_spec m0 e0 Hm) as (S1e & S1m & _ & S1x).
  fold f in S1e, S1m, S1x. replace (Z.max (f - e0) 0) with n in * by lia.
  fold m1 in S1m.
  unfold binary_round_aux.
  destruct (shr_fexp prec emax m0 e0 loc_Exact) as [r1 e1]. cbn [fst snd] in *.
  assert (e1 = f) by lia. subst e1. replace (e0 + n) with f by lia.
  destruct (round_nearest_even_spec r1) as [Hm2 Hm2x].
  set (m2 := round_nearest_even (shr_m r1) (loc_of_shr_record r1)) in *.
  rewrite S1m in Hm2, Hm2x.
  assert (Hm2pos : 0 < m2) by lia.
  (* digits of the rounded mantissa *)
  pose proof (Zdigits2_bounds m1 Hm1) as [L1 U1].
  pose proof (Zdigits2_pos m1 Hm1) as Hd1pos.
  assert (Hd2lo : Zdigits2 m1 <= Zdigits2 m2) by (apply Zdigits2_mono; lia).
  assert (Hd2hi : Zdigits2 m2 <= Zdigits2 m1 + 1).
  { pose proof (Zdigits2_bounds m2 Hm2pos) as [L2 _].
    pose proof (Zdigits2_pos m2 Hm2pos).
    destruct (Z.le_gt_cases (Zdigits2 m2) (Zdigits2 m1 + 1)) as [|Hgt]; [assumption|].
    assert (2 ^ (Zdigits2 m1 + 1) <= 2 ^ (Zdigits2 m2 - 1)) by (apply pow2_le; lia).
    assert (2 ^ (Zdigits2 m1 + 1) = 2 ^ Zdigits2 m1 * 2)
      by (rewrite pow2_split by lia; reflexivity).
    lia. }
  (* second alignment *)
  destruct (shr_fexp_spec m2 f Hm2pos) as (S2e & S2m & _ & _).
  set (k := Z.max (fexp64 (Zdigits2 m2 + f) - f) 0) in *.
  assert (HfD : f = fexp64 (Zdigits2 m1 + f)).
  { subst f. f_equal. lia. }
  assert (Hk : k = fexp64 (Zdigits2 m2 + f) - f /\ 0 <= k <= 1
               /\ (k = 1 -> Zdigits2 m2 = Zdigits2 m1 + 1)).
  { subst k. apply (second_shift (Zdigits2 m1)); [exact HfD|lia]. }
  destruct Hk as (Hk & Hk01 & Hk1).
  destruct (shr_fexp prec emax m2 f loc_Exact) as [r3 e3]. cbn [fst snd] in *.
  exists m2, (shr_m r3), e3.
  assert (Hexact : shr_m r3 * 2 ^ k = m2 /\ 0 < shr_m r3
                   /\ Zdigits2 (shr_m r3) = Zdigits2 m2 - k).
  { rewrite S2m. destruct (Z.eq_dec k 0) as [K0|K0].
    - rewrite K0, Z.pow_0_r, Z.div_1_r. lia.
    - assert (K1 : k = 1) by lia. rewrite K1. change (2 ^ 1) with 2.
      specialize (Hk1 K1).
      assert (E2 : m2 = 2 ^ Zdigits2 m1).
      { pose proof (Zdigits2_bounds m2 Hm2pos) as [L2 _].
        replace (Zdigits2 m2 - 1) with (Zdigits2 m1) in L2 by lia. lia. }
      assert (E3 : m2 = 2 ^ (Zdigits2 m1 - 1) * 2).
      { rewrite E2. replace (Zdigits2 m1) with (Zdigits2 m1 - 1 + 1) at 1 by lia.
        rewrite pow2_split by lia. reflexivity. }
      pose proof (pow2_pos (Zdigits2 m1 - 1) ltac:(lia)) as Hp.
      rewrite E3, Z.div_mul by lia.
      split; [reflexivity|]. split; [exact Hp|].
      rewrite <- E3, Hk1.
      rewrite <- (Z.mul_1_l (2 ^ _)), Zdigits2_shift by lia.
      change (Zdigits2 1) with 1. lia. }
  destruct Hexact as (Hx1 & Hx2 & Hx3).
  assert (He3 : e3 = f + k) by lia.
  repeat split; try lia.
  - intros H0. apply Hm2x. apply S1x. exact H0.
  - replace (e3 - f) with k by lia. exact Hx1.
  - rewrite Hx3, He3. replace (Zdigits2 m2 - k + (f + k)) with (Zdigits2 m2 + f) by lia. lia.
  - destruct (shr_m r3) as [|p|p] eqn:E3; try lia.
    reflexivity.
Qed.

Lemma canonical_exponent m e : canonical m e -> -1074 <= e /\ Zdigits2 m <= 53.
Proof. unfold canonical, fexp64. lia. Qed.

Lemma canonical_units_bounds m e :
  canonical m e ->
  2 ^ (Zdigits2 m + e + 1073) <= units m e < 2 ^ (Zdigits2 m + e + 1074).
Proof.
  intros C. destruct (canonical_exponent m e C) as [He Hd]. destruct C as [Hm _].
  pose proof (Zdigits2_bounds m Hm) as [L U]. pose proof (Zdigits2_pos m Hm).
  pose proof (pow2_pos (e + 1074) ltac:(lia)).
  unfold units.
  replace (Zdigits2 m + e + 1073) with (Zdigits2 m - 1 + (e + 1074)) by lia.
  replace (Zdigits2 m + e + 1074) with (Zdigits2 m + (e + 1074)) by lia.
  rewrite (pow2_split (Zdigits2 m - 1) (e + 1074)),
    (pow2_split (Zdigits2 m) (e + 1074)) by lia.
  nia.
Qed.

(** Canonical floats are ordered by exponent first, then by mantissa. *)
Lemma canonical_lex m e m' e' :
  canonical m e -> canonical m' e' -> units m e <= units m' e' ->
  e < e' \/ (e = e' /\ m <= m').
Proof.
  intros C C' Hle.
  pose proof (canonical_units_bounds m e C) as [L U].
  pose proof (canonical_units_bounds m' e' C') as [L' U'].
  destruct (canonical_exponent m e C) as [He Hd].
  destruct (canonical_exponent m' e' C') as [He' Hd'].
  destruct (Z.lt_trichotomy e e') as [Hlt|[Heq|Hgt]]; [left; assumption| |].
  - right. split; [assumption|]. subst e'. unfold units in Hle.
    pose proof (pow2_pos (e + 1074) ltac:(lia)). nia.
  - exfalso.
    assert (Hn : Zdigits2 m = 53) by (destruct C as [_ C]; unfold fexp64 in C; lia).
    assert (2 ^ (Zdigits2 m' + e' + 1074) <= 2 ^ (Zdigits2 m + e + 1073))
      by (apply pow2_le; destruct C' as [H0 _]; pose proof (Zdigits2_pos m' H0); lia).
    lia.
Qed.

Lemma binary_round_spec (s : bool) (M : positive) (E : Z) :
  -1074 <= E ->
  let f := fexp64 (Zdigits2 (Z.pos M) + E) in
  let v := units (Z.pos M) E in
  let g := 2 ^ (f + 1074) in
  exists m1 m2 m3 e3,
    m1 = v / g /\ 0 < m1 /\ Zdigits2 m1 + f = Zdigits2 (Z.pos M) + E /\
    m1 <= m2 <= m1 + 1 /\ (v mod g = 0 -> m2 = m1) /\
    canonical m3 e3 /\ units m3 e3 = m2 * g /\
    binary_round prec emax s M E
    = if e3 <=? 971 then S754_finite s (Z.to_pos m3) e3 else S754_infinity s.
Proof.
  intros HE f v g.
  unfold binary_round.
  destruct (shl_align_spec M E (SpecFloat.fexp prec emax (Z.pos (digits2_pos M) + E)))
    as [A1 A2].
  rewrite fexp64_eq in A1, A2. change (Z.pos (digits2_pos M)) with (Zdigits2 (Z.pos M)) in *.
  fold f in A1, A2.
  destruct (shl_align M E _) as [mz ez]. cbn [fst snd] in *.
  assert (Hf : -1074 <= f) by (subst f; unfold fexp64; lia).
  pose proof (Zdigits2_pos (Z.pos M) ltac:(lia)) as HdM.
  assert (Hdz : Zdigits2 (Z.pos mz) = Zdigits2 (Z.pos M) + (E - ez)).
  { rewrite A2, Zdigits2_shift by lia. f_equal. lia. }
  destruct (binary_round_aux_spec s (Z.pos mz) ez ltac:(lia)) as
    (m2 & m3 & e3 & B1 & B2 & B3 & B4 & B5 & B6 & B7 & B8).
  - rewrite Hdz. replace (Zdigits2 (Z.pos M) + (E - ez) + ez) with (Zdigits2 (Z.pos M) + E) by lia.
    fold f. lia.
  - lia.
  - rewrite Hdz in *.
    replace (Zdigits2 (Z.pos M) + (E - ez) + ez) with (Zdigits2 (Z.pos M) + E) in * by lia.
    fold f in B1, B2, B3, B5, B6.
    set (c := 2 ^ (ez + 1074)).
    assert (Hc : 0 < c) by (apply pow2_pos; lia).
    pose proof (pow2_pos (f - ez) ltac:(lia)) as Hq.
    assert (Ev : v = Z.pos mz * c).
    { subst v c. unfold units. rewrite A2, <- Z.mul_assoc, <- pow2_split by lia.
      do 2 f_equal. lia. }
    assert (Eg : g = 2 ^ (f - ez) * c).
    { subst g c. rewrite <- pow2_split by lia. f_equal. lia. }
    assert (Ediv : v / g = Z.pos mz / 2 ^ (f - ez)).
    { rewrite Ev, Eg. apply Z.div_mul_cancel_r; lia. }
    assert (Emod : v mod g = (Z.pos mz mod 2 ^ (f - ez)) * c).
    { rewrite Ev, Eg. apply Z.mul_mod_distr_r; lia. }
    exists (v / g), m2, m3, e3.
    rewrite Ediv.
    destruct (Zdigits2_div (Z.pos mz) (f - ez) ltac:(lia)) as [Hd1 _].
    { subst f. unfold fexp64 in *. lia. }
    repeat split; try lia.
    + unfold units. rewrite <- B6, Eg.
      replace (e3 + 1074) with ((e3 - f) + ((f - ez) + (ez + 1074))) by lia.
      rewrite (pow2_split (e3 - f)), (pow2_split (f - ez)) by lia. fold c. ring.
    + exact B8.
Qed.

(** *** Rounding does not cross a float *)

(** Rounding a value that is at least the float [my * 2^ey] gives at least
    that float. *)
Lemma round_ge (s : bool) (M : positive) (E my ey : Z) :
  -1074 <= E -> canonical my ey -> units my ey <= units (Z.pos M) E ->
  binary_round prec emax s M E = S754_infinity s \/
  exists m3 e3,
    binary_round prec emax s M E = S754_finite s m3 e3 /\
    (ey < e3 \/ (ey = e3 /\ my <= Z.pos m3)).
Proof.
  intros HE Cy Hle.
  destruct (binary_round_spec s M E HE) as
    (m1 & m2 & m3 & e3 & R1 & R2 & R3 & R4 & R5 & R6 & R7 & R8).
  set (f := fexp64 (Zdigits2 (Z.pos M) + E)) in *.
  set (v := units (Z.pos M) E) in *.
  set (g := 2 ^ (f + 1074)) in *.
  assert (Hf : -1074 <= f) by (subst f; unfold fexp64; lia).
  assert (Hg : 0 < g) by (apply pow2_pos; lia).
  rewrite R8. destruct (e3 <=? 971); [right|left; reflexivity].
  exists (Z.to_pos m3), e3. split; [reflexivity|].
  destruct R6 as [Hm3 C3]. rewrite Z2Pos.id by lia.
  apply canonical_lex; [exact Cy|split; assumption|].
  rewrite R7.
  (* it is enough to stay below the truncated value *)
  enough (units my ey <= m1 * g) by nia.
  destruct (canonical_exponent my ey Cy) as [Hey Hdy].
  destruct (Z.le_gt_cases f ey) as [Hfe|Hfe].
  - (* the float is a multiple of the rounding unit *)
    assert (Ey : units my ey = my * 2 ^ (ey - f) * g).
    { unfold units. subst g. rewrite <- Z.mul_assoc, <- pow2_split by lia.
      do 2 f_equal. lia. }
    rewrite Ey in *.
    assert (my * 2 ^ (ey - f) <= m1) by (rewrite R1; apply Z.div_le_lower_bound; lia).
    nia.
  - (* the float is below the binade of the value *)
    pose proof (canonical_units_bounds my ey Cy) as [_ Uy].
    pose proof (Zdigits2_bounds m1 R2) as [L1 _].
    pose proof (Zdigits2_pos m1 R2) as Hd1.
    assert (Hf53 : f = Zdigits2 (Z.pos M) + E - 53) by (subst f; unfold fexp64 in *; lia).
    assert (Hp : 2 ^ (Zdigits2 my + ey + 1074) <= 2 ^ (Zdigits2 m1 - 1) * g).
    { subst g. rewrite <- pow2_split by lia. apply pow2_le.
      destruct Cy as [Hmy _]. pose proof (Zdigits2_pos my Hmy). lia. }
    nia.
Qed.

(** Rounding a value that is at most the float [my * 2^ey] gives at most
    that float, and so never overflows. *)
Lemma round_le (s : bool) (M : positive) (E my ey : Z) :
  -1074 <= E -> canonical my ey -> ey <= 971 ->
  units (Z.pos M) E <= units my ey ->
  exists m3 e3,
    binary_round prec emax s M E = S754_finite s m3 e3 /\
    (e3 < ey \/ (e3 = ey /\ Z.pos m3 <= my)).
Proof.
  intros HE Cy Hemax Hle.
  destruct (binary_round_spec s M E HE) as
    (m1 & m2 & m3 & e3 & R1 & R2 & R3 & R4 & R5 & R6 & R7 & R8).
  set (f := fexp64 (Zdigits2 (Z.pos M) + E)) in *.
  set (v := units (Z.pos M) E) in *.
  set (g := 2 ^ (f + 1074)) in *.
  assert (Hf : -1074 <= f) by (subst f; unfold fexp64; lia).
  assert (Hg : 0 < g) by (apply pow2_pos; lia).
  destruct (canonical_exponent my ey Cy) as [Hey Hdy].
  pose proof Cy as [Hmy Cy2].
  (* the float is a multiple of the rounding unit *)
  assert (Hfe : f <= ey).
  { rewrite <- Cy2. apply fexp64_mono.
    assert (Hv : Zdigits2 v = Zdigits2 (Z.pos M) + (E + 1074))
      by (apply Zdigits2_shift; lia).
    assert (Hy : Zdigits2 (units my ey) = Zdigits2 my + (ey + 1074))
      by (apply Zdigits2_shift; lia).
    assert (0 < v) by (subst v; unfold units; pose proof (pow2_pos (E + 1074)); nia).
    pose proof (Zdigits2_mono v (units my ey) ltac:(lia)). lia. }
  assert (Ey : units my ey = my * 2 ^ (ey - f) * g).
  { unfold units. subst g. rewrite <- Z.mul_assoc, <- pow2_split by lia.
    do 2 f_equal. lia. }
  assert (Hm2 : m2 * g <= units my ey).
  { pose proof (Z.div_mod v g ltac:(lia)) as Dv.
    pose proof (Z.mod_pos_bound v g Hg) as Bv.
    rewrite <- R1 in Dv.
    destruct (Z.eq_dec (v mod g) 0) as [Z0|NZ].
    - rewrite (R5 Z0). nia.
    - assert (m1 < my * 2 ^ (ey - f)) by nia. nia. }
  assert (Hlex : e3 < ey \/ (e3 = ey /\ m3 <= my)).
  { apply canonical_lex; [exact R6|exact Cy|]. rewrite R7. exact Hm2. }
  rewrite R8.
  replace (e3 <=? 971) with true by (symmetry; apply Z.leb_le; lia).
  exists (Z.to_pos m3), e3. split; [reflexivity|].
  destruct R6 as [Hm3 _]. rewrite Z2Pos.id by lia. exact Hlex.
Qed.

(** *** The order of floats *)

Lemma SFcompare_rank (x y : spec_float) :
  SF_is_nan x = false -> SF_is_nan y = false ->
  match SFcompare x y with
  | Some Lt => lex_lt (SF_rank x) (SF_rank y)
  | Some Eq => SF_rank x = SF_rank y
  | Some Gt => lex_lt (SF_rank y) (SF_rank x)
  | None => False
  end.
Proof.
  unfold lex_lt.
  destruct x as [sx|sx| |sx mx ex], y as [sy|sy| |sy my ey]; try discriminate;
    intros _ _; try destruct sx; try destruct sy; cbn [SFcompare SF_rank fst snd];
    try lia; try reflexivity.
  all: change (Pos.compare_cont Eq ?a ?b) with (Pos.compare a b).
  all: destruct (Z.compare_spec ex ey) as [He|He|He];
    destruct (Pos.compare_spec mx my) as [Hm|Hm|Hm]; cbn [CompOpp];
    subst; try reflexivity; lia.
Qed.

Lemma SFltb_rank (x y : spec_float) :
  SFltb x y = true ->
  SF_is_nan x = false /\ SF_is_nan y = false /\ lex_lt (SF_rank x) (SF_rank y).
Proof.
  unfold SFltb. intros H.
  assert (Nx : SF_is_nan x = false) by (destruct x; try reflexivity; discriminate).
  assert (Ny : SF_is_nan y = false).
  { destruct y; try reflexivity. destruct x; discriminate. }
  pose proof (SFcompare_rank x y Nx Ny) as C.
  destruct (SFcompare x y) as [[| |]|]; try discriminate. auto.
Qed.

Lemma rank_SFltb (x y : spec_float) :
  SF_is_nan x = false -> SF_is_nan y = false -> lex_lt (SF_rank x) (SF_rank y) -> SFltb x y = true.
Proof.
  intros Nx Ny L. unfold SFltb.
  pose proof (SFcompare_rank x y Nx Ny) as C.
  destruct (SFcompare x y) as [[| |]|]; try reflexivity; try contradiction;
    exfalso; unfold lex_lt in *; destruct (SF_rank x) as [a [b c]], (SF_rank y) as [a' [b' c']];
    cbn [fst snd] in *; try (injection C as -> -> ->); lia.
Qed.

Lemma rank_SFleb (x y : spec_float) :
  SF_is_nan x = false -> SF_is_nan y = false -> lex_le (SF_rank x) (SF_rank y) -> SFleb x y = true.
Proof.
  intros Nx Ny L. unfold SFleb.
  pose proof (SFcompare_rank x y Nx Ny) as C.
  destruct (SFcompare x y) as [[| |]|]; try reflexivity; try contradiction.
  exfalso. unfold lex_le, lex_lt in *.
  destruct (SF_rank x) as [a [b c]], (SF_rank y) as [a' [b' c']]; cbn [fst snd] in *.
  destruct L as [L|L]; [lia|]. injection L as -> -> ->. lia.
Qed.

Lemma lex_lt_trans a b c : lex_lt a b -> lex_lt b c -> lex_lt a c.
Proof.
  unfold lex_lt. destruct a as [a1 [a2 a3]], b as [b1 [b2 b3]], c as [c1 [c2 c3]].
  cbn [fst snd]. lia.
Qed.

Lemma SFltb_trans (x y z : spec_float) :
  SFltb x y = true -> SFltb y z = true -> SFltb x z = true.
Proof.
  intros H1 H2.
  destruct (SFltb_rank x y H1) as (Nx & _ & L1).
  destruct (SFltb_rank y z H2) as (_ & Nz & L2).
  apply rank_SFltb; try assumption. exact (lex_lt_trans _ _ _ L1 L2).
Qed.

(** *** Sums and differences *)

Lemma valid_finite (s : bool) (m : positive) (e : Z) :
  valid_binary (S754_finite s m e) = true -> canonical (Z.pos m) e /\ e <= 971.
Proof.
  cbn [SpecFloat.valid_binary]. unfold bounded, canonical_mantissa.
  rewrite andb_true_iff, Z.eqb_eq, Z.leb_le, fexp64_eq.
  change (emax - prec) with 971. unfold canonical.
  change (Z.pos (digits2_pos m)) with (Zdigits2 (Z.pos m)). lia.
Qed.

Lemma units_aligned (m e ez : Z) :
  -1074 <= ez <= e -> units m e = m * 2 ^ (e - ez) * 2 ^ (ez + 1074).
Proof.
  intros H. unfold units. rewrite <- Z.mul_assoc, <- pow2_split by lia.
  do 2 f_equal. lia.
Qed.

Lemma lex_le_refl a : lex_le a a.
Proof. right. reflexivity. Qed.

(** The sign of what [binary_round] returns is the sign it was given. *)
Lemma binary_round_cases (s : bool) (M : positive) (E : Z) :
  -1074 <= E ->
  binary_round prec emax s M E = S754_infinity s \/
  exists m e, binary_round prec emax s M E = S754_finite s m e.
Proof.
  intros HE.
  destruct (binary_round_spec s M E HE) as (m1 & m2 & m3 & e3 & _ & _ & _ & _ & _ & _ & _ & R).
  rewrite R. destruct (e3 <=? 971); eauto.
Qed.

(** Rounding an integer multiple of [2^ez] that is not below the float [x]
    gives a float that is not below [x]. *)
Lemma normalize_ge (sx : bool) (mx : positive) (ex z ez : Z) :
  valid_binary (S754_finite sx mx ex) = true -> -1074 <= ez <= ex ->
  cond_Zopp sx (Z.pos mx * 2 ^ (ex - ez)) <= z ->
  SF_is_nan (binary_normalize prec emax z ez false) = false /\
  lex_le (SF_rank (S754_finite sx mx ex)) (SF_rank (binary_normalize prec emax z ez false)).
Proof.
  intros V Hez Hz. destruct (valid_finite _ _ _ V) as [Cx Hex].
  pose proof (pow2_pos (ex - ez) ltac:(lia)) as Hp.
  pose proof (pow2_pos (ez + 1074) ltac:(lia)) as Hq.
  pose proof (units_aligned (Z.pos mx) ex ez Hez) as Ux.
  unfold lex_le, lex_lt.
  destruct z as [|M|M]; cbn [binary_normalize].
  - destruct sx; cbn [cond_Zopp] in Hz; [|lia].
    split; [reflexivity|]. cbn [SF_rank fst snd]. lia.
  - destruct sx; cbn [cond_Zopp] in Hz.
    + destruct (binary_round_cases false M ez ltac:(lia)) as [->|(m & e & ->)];
        (split; [reflexivity|]); cbn [SF_rank fst snd]; lia.
    + assert (Hu : units (Z.pos mx) ex <= units (Z.pos M) ez).
      { rewrite Ux. unfold units. nia. }
      destruct (round_ge false M ez (Z.pos mx) ex ltac:(lia) Cx Hu)
        as [->|(m3 & e3 & -> & Hlex)];
        (split; [reflexivity|]); cbn [SF_rank fst snd]; [lia|].
      destruct Hlex as [Hl|[-> Hl]]; [lia|].
      destruct (Z.eq_dec (Z.pos mx) (Z.pos m3)) as [E|E]; [right|left; lia].
      injection E as ->. reflexivity.
  - destruct sx; cbn [cond_Zopp] in Hz; [|lia].
    assert (Hu : units (Z.pos M) ez <= units (Z.pos mx) ex).
    { rewrite Ux. unfold units. nia. }
    destruct (round_le true M ez (Z.pos mx) ex ltac:(lia) Cx Hex Hu)
      as (m3 & e3 & -> & Hlex).
    split; [reflexivity|]. cbn [SF_rank fst snd].
    destruct Hlex as [Hl|[-> Hl]]; [lia|].
    destruct (Z.eq_dec (Z.pos mx) (Z.pos m3)) as [E|E]; [right|left; lia].
    injection E as ->. reflexivity.
Qed.

(** The same from above. *)
Lemma normalize_le (sx : bool) (mx : positive) (ex z ez : Z) :
  valid_binary (S754_finite sx mx ex) = true -> -1074 <= ez <= ex ->
  z <= cond_Zopp sx (Z.pos mx * 2 ^ (ex - ez)) ->
  SF_is_nan (binary_normalize prec emax z ez false) = false /\
  lex_le (SF_rank (binary_normalize prec emax z ez false)) (SF_rank (S754_finite sx mx ex)).
Proof.
  intros V Hez Hz. destruct (valid_finite _ _ _ V) as [Cx Hex].
  pose proof (pow2_pos (ex - ez) ltac:(lia)) as Hp.
  pose proof (pow2_pos (ez + 1074) ltac:(lia)) as Hq.
  pose proof (units_aligned (Z.pos mx) ex ez Hez) as Ux.
  unfold lex_le, lex_lt.
  destruct z as [|M|M]; cbn [binary_normalize].
  - destruct sx; cbn [cond_Zopp] in Hz; [lia|].
    split; [reflexivity|]. cbn [SF_rank fst snd]. lia.
  - destruct sx; cbn [cond_Zopp] in Hz; [lia|].
    assert (Hu : units (Z.pos M) ez <= units (Z.pos mx) ex).
    { rewrite Ux. unfold units. nia. }
    destruct (round_le false M ez (Z.pos mx) ex ltac:(lia) Cx Hex Hu)
      as (m3 & e3 & -> & Hlex).
    split; [reflexivity|]. cbn [SF_rank fst snd].
    destruct Hlex as [Hl|[-> Hl]]; [lia|].
    destruct (Z.eq_dec (Z.pos mx) (Z.pos m3)) as [E|E]; [right|left; lia].
    injection E as ->. reflexivity.
  - destruct sx; cbn [cond_Zopp] in Hz.
    + assert (Hu : units (Z.pos mx) ex <= units (Z.pos M) ez).
      { rewrite Ux. unfold units. nia. }
      destruct (round_ge true M ez (Z.pos mx) ex ltac:(lia) Cx Hu)
        as [->|(m3 & e3 & -> & Hlex)];
        (split; [reflexivity|]); cbn [SF_rank fst snd]; [lia|].
      destruct Hlex as [Hl|[-> Hl]]; [lia|].
      destruct (Z.eq_dec (Z.pos mx) (Z.pos m3)) as [E|E]; [right|left; lia].
      injection E as ->. reflexivity.
    + destruct (binary_round_cases true M ez ltac:(lia)) as [->|(m & e & ->)];
        (split; [reflexivity|]); cbn [SF_rank fst snd]; lia.
Qed.

Lemma aligned_units (s : bool) (m : positive) (e ez : Z) :
  ez <= e ->
  cond_Zopp s (Z.pos (fst (shl_align m e ez))) = cond_Zopp s (Z.pos m * 2 ^ (e - ez)).
Proof.
  intros H. destruct (shl_align_spec m e ez) as [_ A].
  rewrite A. replace (Z.min e ez) with ez by lia. reflexivity.
Qed.

(** Adding something that is not negative does not decrease a float. *)
Lemma SFadd_ge (x h : spec_float) :
  valid_binary x = true -> valid_binary h = true ->
  SF_is_nan x = false -> SF_nonneg h ->
  ~ (x = S754_infinity true /\ h = S754_infinity false) ->
  SFleb x (SF64add x h) = true.
Proof.
  intros Vx Vh Nx Hh Hinf.
  destruct x as [[|]|[|]| |sx mx ex]; try discriminate;
    destruct h as [[|]|[|]| |[|] mh eh]; try contradiction;
    try reflexivity;
    try solve [exfalso; apply Hinf; split; reflexivity];
    try solve [destruct sx; reflexivity];
    try solve [cbn [SF64add SFadd]; apply rank_SFleb; try reflexivity; apply lex_le_refl].
  (* two finite floats *)
  destruct (valid_finite _ _ _ Vx) as [Cx _]. destruct (valid_finite _ _ _ Vh) as [Ch _].
  destruct (canonical_exponent _ _ Cx) as [Hex _].
  destruct (canonical_exponent _ _ Ch) as [Heh _].
  unfold SF64add. cbn [SFadd].
  set (ez := Z.min ex eh).
  rewrite (aligned_units sx mx ex ez), (aligned_units false mh eh ez) by (subst ez; lia).
  pose proof (pow2_pos (eh - ez) ltac:(subst ez; lia)).
  destruct (normalize_ge sx mx ex
              (cond_Zopp sx (Z.pos mx * 2 ^ (ex - ez)) + cond_Zopp false (Z.pos mh * 2 ^ (eh - ez)))
              ez Vx ltac:(subst ez; lia)) as [Nn L].
  { cbn [cond_Zopp]. nia. }
  apply rank_SFleb; [reflexivity|exact Nn|exact L].
Qed.

(** Subtracting something that is not negative does not increase a float. *)
Lemma SFsub_le (x h : spec_float) :
  valid_binary x = true -> valid_binary h = true ->
  SF_is_nan x = false -> SF_nonneg h ->
  ~ (x = S754_infinity false /\ h = S754_infinity false) ->
  SFleb (SF64sub x h) x = true.
Proof.
  intros Vx Vh Nx Hh Hinf.
  destruct x as [[|]|[|]| |sx mx ex]; try discriminate;
    destruct h as [[|]|[|]| |[|] mh eh]; try contradiction;
    try reflexivity;
    try solve [exfalso; apply Hinf; split; reflexivity];
    try solve [destruct sx; reflexivity];
    try solve [cbn [SF64sub SFsub]; apply rank_SFleb; try reflexivity; apply lex_le_refl].
  destruct (valid_finite _ _ _ Vx) as [Cx _]. destruct (valid_finite _ _ _ Vh) as [Ch _].
  destruct (canonical_exponent _ _ Cx) as [Hex _].
  destruct (canonical_exponent _ _ Ch) as [Heh _].
  unfold SF64sub. cbn [SFsub].
  set (ez := Z.min ex eh).
  rewrite (aligned_units sx mx ex ez), (aligned_units false mh eh ez) by (subst ez; lia).
  pose proof (pow2_pos (eh - ez) ltac:(subst ez; lia)).
  destruct (normalize_le sx mx ex
              (cond_Zopp sx (Z.pos mx * 2 ^ (ex - ez)) - cond_Zopp false (Z.pos mh * 2 ^ (eh - ez)))
              ez Vx ltac:(subst ez; lia)) as [Nn L].
  { cbn [cond_Zopp]. nia. }
  apply rank_SFleb; [exact Nn|reflexivity|exact L].
Qed.

(** *** The half spacing is not negative *)

Lemma canonical_lex_lt m e m' e' :
  canonical m e -> canonical m' e' ->
  e < e' \/ (e = e' /\ m < m') -> units m e < units m' e'.
Proof.
  intros C C' L.
  destruct (Z.lt_ge_cases (units m e) (units m' e')) as [|Hge]; [assumption|].
  destruct (canonical_lex m' e' m e C' C Hge); lia.
Qed.

(** The difference of two ordered floats is not negative. *)
Lemma SFsub_nonneg (x0 x1 : spec_float) :
  valid_binary x0 = true -> valid_binary x1 = true ->
  SFltb x0 x1 = true -> SF_nonneg (SF64sub x1 x0).
Proof.
  intros V0 V1 Hlt.
  destruct (SFltb_rank x0 x1 Hlt) as (N0 & N1 & L). unfold lex_lt in L.
  destruct x0 as [[|]|[|]| |s0 m0 e0]; try discriminate;
    destruct x1 as [[|]|[|]| |s1 m1 e1]; try discriminate;
    cbn [SF_rank fst snd] in L; try lia; try exact I;
    try (destruct s0; cbn [SF_rank fst snd] in L; try lia; exact I);
    try (destruct s1; cbn [SF_rank fst snd] in L; try lia; exact I).
  (* two finite floats *)
  destruct (valid_finite _ _ _ V0) as [C0 _]. destruct (valid_finite _ _ _ V1) as [C1 _].
  destruct (canonical_exponent _ _ C0) as [He0 _].
  destruct (canonical_exponent _ _ C1) as [He1 _].
  unfold SF64sub. cbn [SFsub].
  set (ez := Z.min e1 e0).
  rewrite (aligned_units s1 m1 e1 ez), (aligned_units s0 m0 e0 ez) by (subst ez; lia).
  pose proof (pow2_pos (e0 - ez) ltac:(subst ez; lia)) as P0.
  pose proof (pow2_pos (e1 - ez) ltac:(subst ez; lia)) as P1.
  pose proof (pow2_pos (ez + 1074) ltac:(subst ez; lia)) as Pz.
  pose proof (units_aligned (Z.pos m0) e0 ez ltac:(subst ez; lia)) as U0.
  pose proof (units_aligned (Z.pos m1) e1 ez ltac:(subst ez; lia)) as U1.
  set (z := cond_Zopp s1 (Z.pos m1 * 2 ^ (e1 - ez))
            - cond_Zopp s0 (Z.pos m0 * 2 ^ (e0 - ez))).
  assert (Hpos : 0 < z).
  { subst z. destruct s0, s1; cbn [SF_rank fst snd cond_Zopp] in *; try lia.
    - assert (units (Z.pos m1) e1 < units (Z.pos m0) e0)
        by (apply canonical_lex_lt; [assumption..|lia]).
      nia.
    - assert (units (Z.pos m0) e0 < units (Z.pos m1) e1)
        by (apply canonical_lex_lt; [assumption..|lia]).
      nia. }
  destruct z as [|M|M]; try lia.
  cbn [binary_normalize].
  destruct (binary_round_cases false M ez ltac:(subst ez; lia)) as [->|(m & e & ->)];
    exact I.
Qed.

(** Rounding something that is not negative gives nothing negative. *)
Lemma shr_fexp_nonneg (m e : Z) (l : location) :
  0 <= m -> 0 <= shr_m (fst (shr_fexp prec emax m e l)).
Proof.
  intros Hm. unfold shr_fexp, shr.
  assert (H0 : 0 <= shr_m (shr_record_of_loc m l)) by (destruct l as [|[| |]]; exact Hm).
  destruct (_ - e) as [|p|p]; cbn [fst]; try exact H0.
  rewrite iter_pos_nat. apply shr_nat. exact H0.
Qed.

Lemma binary_round_aux_nonneg (m e : Z) (l : location) :
  0 <= m -> SF_nonneg (binary_round_aux prec emax false m e l).
Proof.
  intros Hm. unfold binary_round_aux.
  pose proof (shr_fexp_nonneg m e l Hm) as H1.
  destruct (shr_fexp prec emax m e l) as [r1 e1]. cbn [fst] in H1.
  destruct (round_nearest_even_spec r1) as [H2 _].
  pose proof (shr_fexp_nonneg (round_nearest_even (shr_m r1) (loc_of_shr_record r1)) e1
                loc_Exact ltac:(lia)) as H3.
  destruct (shr_fexp prec emax _ e1 loc_Exact) as [r3 e3]. cbn [fst] in H3.
  destruct (shr_m r3) as [|p|p]; try lia; try exact I.
  destruct (e3 <=? emax - prec); exact I.
Qed.

(** Half of something that is not negative is not negative. *)
Lemma SFdiv_two_nonneg (d : spec_float) : SF_nonneg d -> SF_nonneg (SF64div d SF_two).
Proof.
  destruct d as [[|]|[|]| |[|] m e]; try contradiction; intros _; try exact I.
  unfold SF64div, SF_two. cbn [SFdiv xorb].
  destruct (SFdiv_core_binary prec emax (Z.pos m) e 4503599627370496 (-51))
    as [[mz ez] lz] eqn:E.
  apply binary_round_aux_nonneg.
  unfold SFdiv_core_binary in E.
  set (m' := match _ - _ - _ with Z.pos _ => _ | 0 => _ | Z.neg _ => _ end) in E.
  assert (Hm' : 0 <= m').
  { subst m'. destruct (_ - _ - _) as [|p|p]; try lia. apply Z.shiftl_nonneg. lia. }
  pose proof (Z_div_mod m' 4503599627370496 ltac:(lia)) as D.
  destruct (Z.div_eucl m' 4503599627370496) as [q r].
  injection E as <- _ _. nia.
Qed.

(** *** The same for primitive floats *)

Section Primitive.
Local Open Scope float_scope.

Lemma float_ltb_trans (a b c : float) :
  (a <? b) = true -> (b <? c) = true -> (a <? c) = true.
Proof. rewrite !ltb_spec. apply SFltb_trans. Qed.

Lemma float_half_nonneg (a b two : float) :
  Prim2SF two = SF_two -> (a <? b) = true -> SF_nonneg (Prim2SF ((b - a) / two)).
Proof.
  intros E2 H. rewrite ltb_spec in H. rewrite div_spec, sub_spec, E2.
  apply SFdiv_two_nonneg, SFsub_nonneg; auto using Prim2SF_valid.
Qed.

(** A float below another one is neither NaN nor positive infinity. *)
Lemma below_not_top (x y : spec_float) :
  SFltb x y = true -> SF_is_nan x = false /\ x <> S754_infinity false.
Proof.
  intros H. destruct (SFltb_rank x y H) as (Nx & Ny & L). split; [exact Nx|].
  intros ->. unfold lex_lt in L.
  destruct y as [[|]|[|]| |[|] m e]; try discriminate; cbn [SF_rank fst snd] in L; lia.
Qed.

(** A float above another one is neither NaN nor negative infinity. *)
Lemma above_not_bottom (x y : spec_float) :
  SFltb y x = true -> SF_is_nan x = false /\ x <> S754_infinity true.
Proof.
  intros H. destruct (SFltb_rank y x H) as (Ny & Nx & L). split; [exact Nx|].
  intros ->. unfold lex_lt in L.
  destruct y as [[|]|[|]| |[|] m e]; try discriminate; cbn [SF_rank fst snd] in L; lia.
Qed.

Lemma float_sub_le (x y h : float) :
  (x <? y) = true -> SF_nonneg (Prim2SF h) -> (x - h <=? x) = true.
Proof.
  intros Hxy Hh. rewrite ltb_spec in Hxy. rewrite leb_spec, sub_spec.
  destruct (below_not_top _ _ Hxy) as [Nx Tx].
  apply SFsub_le; auto using Prim2SF_valid. intros [E _]. contradiction.
Qed.

Lemma float_add_ge (x y h : float) :
  (y <? x) = true -> SF_nonneg (Prim2SF h) -> (x <=? x + h) = true.
Proof.
  intros Hyx Hh. rewrite ltb_spec in Hyx. rewrite leb_spec, add_spec.
  destruct (above_not_bottom _ _ Hyx) as [Nx Bx].
  apply SFadd_ge; auto using Prim2SF_valid. intros [E _]. contradiction.
Qed.
End Primitive.
End Rounding.

(** ** The extent of cell 24 in binary64 *)

Section Binary64Extent.
Implicit Types (a b v : float) (l x y : list float).

Lemma float_two : Prim2SF (num_of_Z 2) = SF_two.
Proof. vm_compute. reflexivity. Qed.

(** A strictly increasing sequence of floats ends above where it starts. *)
Lemma strictly_increasing_last_float a b l v :
  strictly_increasing (a :: b :: l) -> last (a :: b :: l) = Some v ->
  PrimFloat.ltb a v = true.
Proof.
  revert a b. induction l as [|c l IH]; intros a b [Hab Hs] Hl.
  - cbn in Hl. injection Hl as <-. exact Hab.
  - change (last (a :: b :: c :: l)) with (last (b :: c :: l)) in Hl.
    exact (float_ltb_trans a b v Hab (IH b c Hs Hl)).
Qed.

(** Along one axis: the half spacing is not negative, so subtracting it
    from the first centre and adding it to the last one moves neither
    inwards. *)
Lemma axis_bounded_centers a1 a2 l cl :
  strictly_increasing (a1 :: a2 :: l) ->
  getitem (a1 :: a2 :: l) (-1) = Ok cl ->
  axis_bounded (a1 :: a2 :: l)
    (a1 - (a2 - a1) / num_of_Z 2)%num (cl + (a2 - a1) / num_of_Z 2)%num.
Proof.
  intros Hs Hl.
  pose proof (strictly_increasing_last_float a1 a2 l cl Hs (getitem_last_inv _ _ Hl))
    as H1l.
  destruct Hs as [H12 _].
  pose proof (float_half_nonneg a1 a2 (num_of_Z 2) float_two H12) as Hh.
  exists a1, a2, cl.
  split; [apply getitem_first|]. split; [apply getitem_second|].
  split; [exact Hl|]. split; [reflexivity|]. split; [reflexivity|].
  split; [|split].
  - exact (float_sub_le a1 a2 _ H12 Hh).
  - exact H1l.
  - exact (float_add_ge cl a1 _ H1l Hh).
Qed.

(** C2, amended: for strictly increasing float64 centres, two or more per
    axis, the bounding box is [x[0] - dx/2], [x[-1] + dx/2] (and the same
    along y) with [dx = x[1] - x[0]], every operation rounded to the
    nearest float, and no centre lies outside it:
    [x_min <= x[0] < x[-1] <= x_max]. *)
Theorem extent_bounds_centers_binary64 x y :
  strictly_increasing x -> (2 <= length x)%nat ->
  strictly_increasing y -> (2 <= length y)%nat ->
  extent_bounds_centers x y.
Proof.
  intros Hsx Hx Hsy Hy.
  destruct x as [|a1 [|a2 x]]; simpl in Hx; try lia.
  destruct y as [|b1 [|b2 y]]; simpl in Hy; try lia.
  destruct (centers_extent_cons a1 a2 x b1 b2 y) as (xl & yl & Hxl & Hyl & E).
  unfold extent_bounds_centers. do 4 eexists.
  split; [exact E|].
  split; apply axis_bounded_centers; assumption.
Qed.
End Binary64Extent.

(** ** The notebook's own numbers, in binary64 *)

(** Cell 5 and cell 7 on the sample data: five and six edges for four and
    five centres. *)
Example cell7_on_notebook_data :
  xcenter = [0.5; 1.5; 2.5; 3.5]%float /\
  ycenter = [0.5; 1.5; 2.5; 3.5; 4.5]%float /\
  (let s := cell5 xcenter ycenter in cell7 (sample_X s) (sample_Y s))
  = Ok {| edges_x := [0; 1; 2; 3; 4]%float; edges_y := [0; 1; 2; 3; 4; 5]%float |}.
Proof. vm_compute. repeat split. Qed.

(** The extent of the sample centres, and the export geometry for ten dots
    per cell on a figure four inches wide. *)
Example extent_of_notebook_data :
  dx xcenter = Ok 1%float /\
  centers_extent xcenter ycenter = Ok [0; 4; 0; 5]%float /\
  compute_export_geometry 4%float xcenter ycenter 10
  = Ok {| pixel_width := 40; pixel_height := 50; dpi := 10%float;
          bounding_box := [0; 4; 0; 5]%float |}.
Proof. vm_compute. repeat split. Qed.

(** A single coordinate along x. *)
Example single_coordinate_is_refused :
  cell7_edges [0.5%float] ycenter = Err IndexError /\
  centers_extent [0.5%float] ycenter = Err IndexError /\
  compute_export_geometry 4%float [0.5%float] ycenter 10 = Err InvalidGrid.
Proof. vm_compute. repeat split. Qed.

(** ** Where rounding breaks the statements *)

(** C2, as stated, fails in binary64.  On three consecutive floats the
    half spacing is half a unit in the last place: [x[0] - dx/2] and
    [x[-1] + dx/2] are ties, both round to even, and the box is
    [[x[0], x[-1]]]: it touches the outermost centres and does not
    enclose them. *)
Lemma extent_touches_centers_binary64 :
  strictly_increasing tight_centers /\ (2 <= length tight_centers)%nat /\
  centers_extent tight_centers tight_centers
  = Ok [0x1.0000000000002p+0; 0x1.0000000000004p+0;
        0x1.0000000000002p+0; 0x1.0000000000004p+0]%float /\
  ~ extent_encloses_centers tight_centers tight_centers.
Proof.
  split; [vm_compute; repeat split|].
  split; [vm_compute; lia|].
  split; [vm_compute; reflexivity|].
  intros (xmin & xmax & ymin & ymax & E &
          (c0 & c1 & cl & G0 & _ & _ & _ & _ & L1 & _) & _).
  vm_compute in E. vm_compute in G0.
  injection E as <- <- <- <-. injection G0 as <-.
  vm_compute in L1. discriminate.
Qed.

(** C10, as stated, fails in binary64.  On the same centres, uniformly
    spaced and strictly increasing, [(stop - start)/dx] is exactly [3.0]:
    cell 7 makes three edges for three centres (the centres themselves),
    not four. *)
Lemma edges_miss_extent_binary64 :
  strictly_increasing tight_centers /\ uniformly_spaced tight_centers /\
  (2 <= length tight_centers)%nat /\
  cell7_edges tight_centers tight_centers
  = Ok {| edges_x := tight_centers; edges_y := tight_centers |} /\
  ~ edges_agree_with_extent tight_centers tight_centers.
Proof.
  split; [vm_compute; repeat split|].
  split; [vm_compute; repeat split|].
  split; [vm_compute; lia|].
  split; [vm_compute; reflexivity|].
  intros (e & x1 & x2 & y1 & y2 & E & _ & (Hlen & _) & _).
  vm_compute in E. injection E as <-.
  vm_compute in Hlen. discriminate.
Qed.


(** ** Instances *)

(** C1 at the smallest grid: two centres per axis and one dot per cell give
    a 2 by 2 image. *)
Lemma pixel_dimensions_smallest_grid :
  exists g,
    compute_export_geometry 1%float [0.5; 1.5]%float [0.5; 1.5]%float 1 = Ok g /\
    pixel_width g = 2%Z /\ pixel_height g = 2%Z.
Proof.
  apply (pixel_dimensions_exact 1%float [0.5; 1.5]%float [0.5; 1.5]%float 1%Z).
  - vm_compute. repeat split.
  - simpl. lia.
  - vm_compute. repeat split.
  - simpl. lia.
  - lia.
Defined.

(** C2 at the centres of the notebook: [x = [0.5, 1.5, 2.5, 3.5]] has
    spacing [1.0] and lies between [0.0] and [4.0]. *)
Lemma extent_bounds_notebook_centers :
  extent_bounds_centers xcenter ycenter /\
  dx xcenter = Ok 1%float /\
  centers_extent xcenter ycenter = Ok [0; 4; 0; 5]%float.
Proof.
  split.
  - apply extent_bounds_centers_binary64.
    + vm_compute. repeat split.
    + vm_compute. lia.
    + vm_compute. repeat split.
    + vm_compute. lia.
  - vm_compute. split; reflexivity.
Defined.

(** The same centres as rationals are strictly inside their box. *)
Example extent_encloses_notebook_centers :
  extent_encloses_centers xcenter_exact ycenter_exact.
Proof.
  apply extent_encloses_centers_exact.
  - vm_compute. repeat split.
  - simpl. lia.
  - vm_compute. repeat split.
  - simpl. lia.
Qed.

(** C6 at the centres of the notebook: moving the third centre from 2.5 to
    3.25 changes nothing. *)
Lemma uneven_interior_goes_unnoticed :
  dx xcenter = dx xcenter_uneven /\ dy ycenter = dy ycenter /\
  cell7_edges xcenter ycenter = cell7_edges xcenter_uneven ycenter /\
  centers_extent xcenter ycenter = centers_extent xcenter_uneven ycenter.
Proof.
  apply geometry_ignores_interior; vm_compute; reflexivity.
Defined.


(** C10 at the centres of the notebook, as rationals. *)
Lemma edges_agree_on_notebook_centers :
  edges_agree_with_extent xcenter_exact ycenter_exact.
Proof.
  apply edges_agree_with_extent_exact.
  - vm_compute. repeat split.
  - vm_compute. repeat split.
  - simpl. lia.
  - vm_compute. repeat split.
  - vm_compute. repeat split.
  - simpl. lia.
Defined.

(** * Further properties of the cells *)

(** ** The entries of the sample arrays *)

Section Entries.
Context {R : Type} `{Number R}.
Implicit Types (x y : list R).

Lemma lookup_map {A B} (f : A -> B) (l : list A) (i : nat) :
  map f l !! i = option_map f (l !! i).
Proof.
  revert i. induction l as [|a l IH]; intros [|i]; try reflexivity. apply IH.
Qed.

Lemma lookup_zip_with_total {A B C} (f : A -> B -> C) (l : list A) (k : list B) i :
  zip_with f l k !! i
  = match l !! i, k !! i with
    | Some a, Some b => Some (f a b)
    | _, _ => None
    end.
Proof.
  revert k i. induction l as [|a l IH]; intros [|b k] [|i]; try reflexivity.
  - cbn. destruct (l !! i); reflexivity.
  - cbn. apply IH.
Qed.

Lemma lookup_removelast {A} (l : list A) i :
  removelast l !! i = if decide (i + 1 < length l)%nat then l !! i else None.
Proof.
  revert i. induction l as [|a [|b l] IH]; intros i.
  - destruct i; case_decide; reflexivity.
  - cbn. destruct i; case_decide; try reflexivity; simpl in *; lia.
  - change (removelast (a :: b :: l)) with (a :: removelast (b :: l)).
    destruct i as [|i].
    + cbn. case_decide; [reflexivity|]. simpl in *; lia.
    + cbn [lookup list_lookup].
      change (removelast (b :: l) !! i
              = if decide (S i + 1 < length (a :: b :: l))%nat
                then (b :: l) !! i else None).
      rewrite IH. cbn [length]. repeat case_decide; try reflexivity; lia.
Qed.

Lemma entry_cell5_X x y i j :
  entry (sample_X (cell5 x y)) i j
  = match y !! i with Some _ => x !! j | None => None end.
Proof.
  unfold entry, cell5. cbn [meshgrid sample_X]. rewrite lookup_map.
  destruct (y !! i); reflexivity.
Qed.

Lemma entry_cell5_Y x y i j :
  entry (sample_Y (cell5 x y)) i j
  = match y !! i, x !! j with Some yi, Some _ => Some yi | _, _ => None end.
Proof.
  unfold entry, cell5. cbn [meshgrid sample_Y]. rewrite lookup_map.
  destruct (y !! i); [|reflexivity]. cbn [option_map].
  rewrite lookup_map. destruct (x !! j); reflexivity.
Qed.

Lemma entry_cell5_Z x y i j :
  entry (sample_Z (cell5 x y)) i j
  = match y !! i, x !! j with
    | Some yi, Some xj => Some (xj + yi)%num
    | _, _ => None
    end.
Proof.
  unfold entry, cell5, add2. cbn [meshgrid sample_Z].
  rewrite lookup_zip_with_total, !lookup_map.
  destruct (y !! i); [|reflexivity]. cbn [option_map].
  rewrite lookup_zip_with_total, lookup_map.
  destruct (x !! j); reflexivity.
Qed.

Lemma entry_cell15 x y i j :
  entry (cell15 (cell5 x y)) i j
  = match y !! i, x !! j with
    | Some yi, Some xj =>
        Some ((xj - num_of_Z 2) * (xj - num_of_Z 2)
              + (yi - num_of_Z 2) * (yi - num_of_Z 2))%num
    | _, _ => None
    end.
Proof.
  unfold entry, cell15, Zbowl, add2, square2, sub_scalar, cell5.
  cbn [meshgrid sample_X sample_Y].
  rewrite lookup_zip_with_total, !lookup_map.
  destruct (y !! i); [|reflexivity]. cbn [option_map].
  rewrite lookup_zip_with_total, !lookup_map.
  destruct (x !! j); reflexivity.
Qed.

Lemma cell5_Z_row_length x y i r :
  sample_Z (cell5 x y) !! i = Some r -> length r = length x.
Proof.
  unfold cell5, add2. cbn [meshgrid sample_Z].
  rewrite lookup_zip_with_total, !lookup_map.
  destruct (y !! i); [|discriminate]. cbn [option_map].
  intros [= <-]. rewrite length_zip_with, length_map. lia.
Qed.

Lemma cell5_Z_length x y : length (sample_Z (cell5 x y)) = length y.
Proof.
  unfold cell5, add2. cbn [meshgrid sample_Z].
  rewrite length_zip_with, !length_map. lia.
Qed.

(** X1.  Cell 5 lays the centres out along the columns and the rows: at
    row [i] and column [j], [X] holds [xcenter[j]], [Y] holds [ycenter[i]]
    and [Z = X+Y] holds their sum. *)
Theorem cell5_entries x y i j xj yi :
  x !! j = Some xj -> y !! i = Some yi ->
  let s := cell5 x y in
  entry (sample_X s) i j = Some xj /\
  entry (sample_Y s) i j = Some yi /\
  entry (sample_Z s) i j = Some (xj + yi)%num.
Proof.
  intros Hx Hy s. subst s.
  rewrite entry_cell5_X, entry_cell5_Y, entry_cell5_Z, Hx, Hy. auto.
Qed.

(** X3.  [Z[:-1,:-1]] of cell 13 keeps every entry of [Z] where it was and
    loses the last row and the last column, nothing else. *)
Theorem cell13_entries x y i j v :
  let Z := sample_Z (cell5 x y) in
  entry (drop_last_row_col Z) i j = Some v <->
  (i + 1 < length y)%nat /\ (j + 1 < length x)%nat /\ entry Z i j = Some v.
Proof.
  intros Z. unfold entry at 1, drop_last_row_col.
  rewrite lookup_map, lookup_removelast.
  pose proof (cell5_Z_length x y) as HL. fold Z in HL. rewrite HL.
  unfold entry.
  case_decide as Hi.
  - destruct (Z !! i) as [r|] eqn:Er; cbn [option_map].
    + pose proof (cell5_Z_row_length x y i r Er) as Hr.
      rewrite lookup_removelast, Hr.
      case_decide as Hj; [tauto|]. split; [discriminate|tauto].
    + split; [discriminate|]. intros (_ & _ & E). discriminate.
  - cbn [option_map]. split; [discriminate|tauto].
Qed.

Lemma col0_constant_rows (a : R) x (l : list R) :
  mapM (fun r : list R => getitem r 0) (map (fun yi => map (fun _ => yi) (a :: x)) l)
  = Ok l.
Proof.
  induction l as [|c l IH]; [reflexivity|].
  cbn [map mapM] in *. rewrite getitem_first. cbn [bind]. rewrite IH. reflexivity.
Qed.

(** X2.  The slices of cell 7 undo the meshgrid of cell 5: [X[0,:]] is
    [xcenter] and [Y[:,0]] is [ycenter] whenever the grid has a row and a
    column to slice, the slice raises [IndexError] when it has not, and in
    every case cell 7 on [X], [Y] does what its arithmetic does on the
    centres. *)
Theorem slices_give_back_centers x y :
  let s := cell5 x y in
  cell7 (sample_X s) (sample_Y s) = cell7_edges x y /\
  (y <> [] -> row0 (sample_X s) = Ok x) /\
  (x <> [] -> col0 (sample_Y s) = Ok y) /\
  (y = [] -> row0 (sample_X s) = Err IndexError) /\
  (x = [] -> y <> [] -> col0 (sample_Y s) = Err IndexError).
Proof.
  intros s. subst s. unfold cell5. cbn [meshgrid sample_X sample_Y].
  split; [|split; [|split; [|split]]].
  - destruct y as [|b y].
    + unfold cell7, row0. cbn [map]. rewrite getitem_nil. cbn [bind].
      symmetry. apply cell7_edges_short. right. simpl. lia.
    + destruct x as [|a x].
      * unfold cell7, row0. cbn [map]. rewrite getitem_first. cbn [bind].
        unfold col0. cbn [map mapM]. rewrite getitem_nil. cbn [bind].
        symmetry. apply cell7_edges_short. left. simpl. lia.
      * unfold cell7, row0.
        change (map (fun _ : R => a :: x) (b :: y))
          with ((a :: x) :: map (fun _ : R => a :: x) y).
        rewrite getitem_first. cbn [bind].
        unfold col0. rewrite col0_constant_rows. reflexivity.
  - destruct y as [|b y]; [congruence|]. intros _. apply getitem_first.
  - destruct x as [|a x]; [congruence|]. intros _. apply col0_constant_rows.
  - intros ->. reflexivity.
  - intros ->. destruct y as [|b y]; [congruence|]. intros _. reflexivity.
Qed.
End Entries.

(** ** Which arrays make the cells raise *)

Section ArrayFailures.
Context {R : Type} `{Number R}.

(** Cell 7 returns edges only for two or more centres per axis, and then
    they are the two [np.arange] of the cell. *)
Lemma cell7_edges_Ok_inv (x y : list R) e :
  cell7_edges x y = Ok e ->
  exists a1 a2 l b1 b2 l',
    x = a1 :: a2 :: l /\ y = b1 :: b2 :: l' /\
    xedge x (a2 - a1)%num = Ok (edges_x e) /\ xedge y (b2 - b1)%num = Ok (edges_y e).
Proof.
  intros E.
  destruct x as [|a1 [|a2 l]];
    try (rewrite cell7_edges_short in E by (left; simpl; lia); discriminate).
  destruct y as [|b1 [|b2 l']];
    try (rewrite cell7_edges_short in E by (right; simpl; lia); discriminate).
  exists a1, a2, l, b1, b2, l'. split; [reflexivity|]. split; [reflexivity|].
  unfold cell7_edges in E. rewrite dx_cons, dy_cons in E. cbn [bind] in E.
  destruct (xedge _ _) as [xe|]; [|discriminate]. cbn [bind] in E.
  rewrite yedge_is_xedge in E.
  destruct (xedge _ _) as [ye|]; [|discriminate]. cbn [bind] in E.
  injection E as <-. split; reflexivity.
Qed.

Lemma col0_cases (Y : list (list R)) :
  (In [] Y /\ col0 Y = Err IndexError) \/
  (~ In [] Y /\ exists y, col0 Y = Ok y /\ length y = length Y).
Proof.
  induction Y as [|c Y IH].
  - right. split; [intros []|]. exists []. split; reflexivity.
  - unfold col0 in *. cbn [mapM].
    destruct c as [|v c].
    + left. split; [left; reflexivity|]. rewrite getitem_nil. reflexivity.
    + rewrite getitem_first. cbn [bind].
      destruct IH as [[Hin ->]|(Hnin & y & -> & Hy)]; cbn [bind].
      * left. split; [right; exact Hin|reflexivity].
      * right. split; [intros [E|E]; [discriminate|contradiction]|].
        exists (v :: y). split; [reflexivity|]. cbn [length]. congruence.
Qed.

(** X10.  Cell 7 on 2-D arrays raises [IndexError] exactly when [X] has no
    row, [Y] has a row with no entry (no column), the first row of [X] has
    fewer than two entries, or [Y] has fewer than two rows. *)
Theorem cell7_index_error_iff (X Y : list (list R)) :
  cell7 X Y = Err IndexError <->
  X = [] \/ In [] Y \/ (exists r, head X = Some r /\ (length r < 2)%nat)
  \/ (length Y < 2)%nat.
Proof.
  unfold cell7, row0.
  destruct X as [|r X].
  - rewrite getitem_nil. cbn [bind]. split; auto.
  - rewrite getitem_first. cbn [bind].
    destruct (col0_cases Y) as [[Hin ->]|(Hnin & y & -> & Hy)]; cbn [bind].
    + split; auto.
    + assert (E7 : cell7_edges r y = Err IndexError
                   <-> (length r < 2 \/ length y < 2)%nat).
      { split; [intros E|apply cell7_edges_short].
        apply short_unless_long. intros Hr Hl. exact (cell7_edges_long r y Hr Hl E). }
      rewrite E7, Hy.
      cbn [head]. split.
      * intros [Hr|Hl]; [right; right; left; eauto|auto].
      * intros [E|[E|[(r' & [= <-] & Hr)|Hl]]];
          [discriminate|contradiction|left; exact Hr|right; exact Hl].
Qed.

(** X5.  [topo_cmap] never gets to return a single colormap.  It raises
    [IndexError] exactly when there is no limit, or one limit that is not
    [>= 0.0]; it raises [NameError], at [colors.Normalize], exactly when
    [limits[0] >= 0.0] or, failing that, [limits[1] <= 0.0]; and it
    returns exactly when neither comparison holds of two limits, and then
    what [add_colormaps] makes of both maps, the limits and the break
    [0.0]. *)
Theorem topo_cmap_outcomes (limits : list R) :
  (topo_cmap limits = Err IndexError <->
   limits = [] \/
   exists lo, limits = [lo] /\ num_leb (num_of_Z 0) lo = false) /\
  (topo_cmap limits = Err NameError <->
   exists lo rest,
     limits = lo :: rest /\
     (num_leb (num_of_Z 0) lo = true \/
      exists hi rest', rest = hi :: rest' /\ num_leb hi (num_of_Z 0) = true)) /\
  (forall c,
      topo_cmap limits = Ok c <->
      exists lo hi rest,
        limits = lo :: hi :: rest /\
        num_leb (num_of_Z 0) lo = false /\ num_leb hi (num_of_Z 0) = false /\
        c = add_colormaps (cmap_land, cmap_water) limits (num_of_Z 0)).
Proof.
  destruct limits as [|lo [|hi l]].
  - unfold topo_cmap. rewrite getitem_nil. cbn [bind].
    split; [|split].
    + split; [auto|reflexivity].
    + split; [discriminate|intros (lo & rest & E & _); discriminate].
    + intros c. split; [discriminate|intros (lo & hi & rest & E & _); discriminate].
  - unfold topo_cmap. rewrite getitem_first. cbn [bind].
    rewrite getitem_second_short.
    destruct (num_leb _ lo) eqn:E1; cbn [bind colors].
    + split; [|split].
      * split; [discriminate|].
        intros [E|(lo' & [= <-] & E)]; [discriminate|congruence].
      * split; [intros _; exists lo, []; auto|reflexivity].
      * intros c. split; [discriminate|intros (? & ? & ? & E & _); discriminate].
    + split; [|split].
      * split; [intros _; right; exists lo; auto|reflexivity].
      * split; [discriminate|].
        intros (lo' & rest & [= <- <-] & [E|(hi & rest' & E & _)]);
          [congruence|discriminate].
      * intros c. split; [discriminate|intros (? & ? & ? & E & _); discriminate].
  - unfold topo_cmap. rewrite getitem_first, getitem_second. cbn [bind].
    destruct (num_leb _ lo) eqn:E1; cbn [bind colors].
    + split; [|split].
      * split; [discriminate|].
        intros [E|(lo' & E & _)]; discriminate.
      * split; [intros _; exists lo, (hi :: l); auto|reflexivity].
      * intros c. split; [discriminate|].
        intros (lo' & hi' & rest & [= <- <- <-] & E & _). congruence.
    + destruct (num_leb hi _) eqn:E2; cbn [bind colors].
      * split; [|split].
        -- split; [discriminate|].
           intros [E|(lo' & E & _)]; discriminate.
        -- split; [|reflexivity].
           intros _. exists lo, (hi :: l). split; [reflexivity|].
           right. exists hi, l. auto.
        -- intros c. split; [discriminate|].
           intros (lo' & hi' & rest & [= <- <- <-] & _ & E & _). congruence.
      * split; [|split].
        -- split; [discriminate|].
           intros [E|(lo' & E & _)]; discriminate.
        -- split; [discriminate|].
           intros (lo' & rest & [= <- <-] & [E|(hi' & rest' & [= <- <-] & E)]);
             congruence.
        -- intros c. split.
           ++ intros [= <-]. exists lo, hi, l. auto.
           ++ intros (lo' & hi' & rest & [= <- <- <-] & _ & _ & ->). reflexivity.
Qed.
End ArrayFailures.

(** ** The order of binary64 *)

Section Order.
Local Open Scope Z_scope.

Lemma SFleb_rank (x y : spec_float) :
  SFleb x y = true ->
  SF_is_nan x = false /\ SF_is_nan y = false /\ lex_le (SF_rank x) (SF_rank y).
Proof.
  unfold SFleb. intros H.
  assert (Nx : SF_is_nan x = false) by (destruct x; try reflexivity; discriminate).
  assert (Ny : SF_is_nan y = false).
  { destruct y; try reflexivity. destruct x; discriminate. }
  pose proof (SFcompare_rank x y Nx Ny) as C.
  destruct (SFcompare x y) as [[| |]|]; try discriminate.
  - split; [exact Nx|]. split; [exact Ny|]. right. exact C.
  - split; [exact Nx|]. split; [exact Ny|]. left. exact C.
Qed.

Lemma lex_le_trans a b c : lex_le a b -> lex_le b c -> lex_le a c.
Proof.
  unfold lex_le. intros [L1| ->] [L2| ->]; auto.
  left. exact (lex_lt_trans _ _ _ L1 L2).
Qed.

Lemma lex_lt_le_absurd a b : lex_lt a b -> lex_le b a -> False.
Proof.
  unfold lex_le, lex_lt. destruct a as [a1 [a2 a3]], b as [b1 [b2 b3]].
  cbn [fst snd]. intros L [L'|E]; [lia|]. injection E as -> -> ->. lia.
Qed.

Lemma SFleb_trans (x y z : spec_float) :
  SFleb x y = true -> SFleb y z = true -> SFleb x z = true.
Proof.
  intros H1 H2.
  destruct (SFleb_rank x y H1) as (Nx & _ & L1).
  destruct (SFleb_rank y z H2) as (_ & Nz & L2).
  apply rank_SFleb; try assumption. exact (lex_le_trans _ _ _ L1 L2).
Qed.

Lemma SFleb_refl (x : spec_float) : SF_is_nan x = false -> SFleb x x = true.
Proof. intros Nx. apply rank_SFleb; try assumption. apply lex_le_refl. Qed.

Lemma SFleb_not_ltb (x y : spec_float) : SFleb x y = true -> SFltb y x = false.
Proof.
  intros H. destruct (SFleb_rank x y H) as (_ & _ & L).
  destruct (SFltb y x) eqn:E; [|reflexivity].
  destruct (SFltb_rank y x E) as (_ & _ & L').
  destruct (lex_lt_le_absurd _ _ L' L).
Qed.

(** Two floats that are not NaN compare one way or the other. *)
Lemma SFleb_total (x y : spec_float) :
  SF_is_nan x = false -> SF_is_nan y = false -> SFleb x y = false -> SFltb y x = true.
Proof.
  intros Nx Ny H. apply rank_SFltb; try assumption.
  pose proof (SFcompare_rank x y Nx Ny) as C. unfold SFleb in H.
  destruct (SFcompare x y) as [[| |]|]; try discriminate; try contradiction.
  exact C.
Qed.

Lemma SF_nonneg_leb (x : spec_float) :
  SF_nonneg x <-> SFleb (S754_zero false) x = true.
Proof.
  destruct x as [[|]|[|]| |[|] m e]; cbn; intuition discriminate.
Qed.

Lemma SF_pos_ltb (h : spec_float) : SF_pos h <-> SFltb (S754_zero false) h = true.
Proof.
  destruct h as [[|]|[|]| |[|] m e]; cbn; intuition discriminate.
Qed.

(** A square is NaN or not negative. *)
Lemma SFmul_square (x : spec_float) :
  SF_nonneg (SF64mul x x) \/ SF64mul x x = S754_nan.
Proof.
  unfold SF64mul.
  destruct x as [[|]|[|]| |[|] m e]; cbn [SFmul xorb]; auto; try (left; exact I).
  all: left; apply binary_round_aux_nonneg; lia.
Qed.

Lemma SFadd_nonneg (x y : spec_float) :
  valid_binary x = true -> valid_binary y = true ->
  SF_nonneg x -> SF_nonneg y -> SF_nonneg (SF64add x y).
Proof.
  intros Vx Vy Hx Hy. apply SF_nonneg_leb.
  apply SFleb_trans with x; [apply SF_nonneg_leb; exact Hx|].
  apply SFadd_ge; try assumption.
  - destruct x; try reflexivity; contradiction.
  - intros [-> _]. contradiction.
Qed.

(** A finite float minus itself is [+0.0]. *)
Lemma SFsub_self (x : spec_float) :
  SFltb (S754_infinity true) x = true -> SFltb x (S754_infinity false) = true ->
  SF64sub x x = S754_zero false.
Proof.
  unfold SF64sub.
  destruct x as [[|]|[|]| |s m e]; try discriminate; intros _ _; try reflexivity.
  cbn [SFsub]. rewrite Z.sub_diag. reflexivity.
Qed.

(** The difference of two ordered floats is positive: it does not round
    to zero, however close they are. *)
Lemma SFsub_pos (x0 x1 : spec_float) :
  valid_binary x0 = true -> valid_binary x1 = true ->
  SFltb x0 x1 = true -> SF_pos (SF64sub x1 x0).
Proof.
  intros V0 V1 Hlt.
  destruct (SFltb_rank x0 x1 Hlt) as (N0 & N1 & L). unfold lex_lt in L.
  destruct x0 as [[|]|[|]| |s0 m0 e0]; try discriminate;
    destruct x1 as [[|]|[|]| |s1 m1 e1]; try discriminate;
    cbn [SF_rank fst snd] in L; try lia; try exact I;
    try (destruct s0; cbn [SF_rank fst snd] in L; try lia; exact I);
    try (destruct s1; cbn [SF_rank fst snd] in L; try lia; exact I).
  destruct (valid_finite _ _ _ V0) as [C0 _]. destruct (valid_finite _ _ _ V1) as [C1 _].
  destruct (canonical_exponent _ _ C0) as [He0 _].
  destruct (canonical_exponent _ _ C1) as [He1 _].
  unfold SF64sub. cbn [SFsub].
  set (ez := Z.min e1 e0).
  rewrite (aligned_units s1 m1 e1 ez), (aligned_units s0 m0 e0 ez) by (subst ez; lia).
  pose proof (pow2_pos (e0 - ez) ltac:(subst ez; lia)) as P0.
  pose proof (pow2_pos (e1 - ez) ltac:(subst ez; lia)) as P1.
  pose proof (pow2_pos (ez + 1074) ltac:(subst ez; lia)) as Pz.
  pose proof (units_aligned (Z.pos m0) e0 ez ltac:(subst ez; lia)) as U0.
  pose proof (units_aligned (Z.pos m1) e1 ez ltac:(subst ez; lia)) as U1.
  set (z := cond_Zopp s1 (Z.pos m1 * 2 ^ (e1 - ez))
            - cond_Zopp s0 (Z.pos m0 * 2 ^ (e0 - ez))).
  assert (Hpos : 0 < z).
  { subst z. destruct s0, s1; cbn [SF_rank fst snd cond_Zopp] in *; try lia.
    - assert (units (Z.pos m1) e1 < units (Z.pos m0) e0)
        by (apply canonical_lex_lt; [assumption..|lia]).
      nia.
    - assert (units (Z.pos m0) e0 < units (Z.pos m1) e1)
        by (apply canonical_lex_lt; [assumption..|lia]).
      nia. }
  destruct z as [|M|M]; try lia.
  cbn [binary_normalize].
  destruct (binary_round_cases false M ez ltac:(subst ez; lia)) as [->|(m & e & ->)];
    exact I.
Qed.
End Order.

Section PrimitiveOrder.
Local Open Scope float_scope.

Lemma float_zero : num_of_Z 0 = 0.
Proof. reflexivity. Qed.

Lemma float_leb_trans (a b c : float) :
  (a <=? b) = true -> (b <=? c) = true -> (a <=? c) = true.
Proof. rewrite !leb_spec. apply SFleb_trans. Qed.

Lemma float_leb_refl_l (a b : float) : (a <=? b) = true -> (a <=? a) = true.
Proof.
  rewrite !leb_spec. intros H. destruct (SFleb_rank _ _ H) as (Na & _ & _).
  apply SFleb_refl. exact Na.
Qed.

Lemma float_leb_refl_r (a b : float) : (a <=? b) = true -> (b <=? b) = true.
Proof.
  rewrite !leb_spec. intros H. destruct (SFleb_rank _ _ H) as (_ & Nb & _).
  apply SFleb_refl. exact Nb.
Qed.

Lemma float_leb_total (a b : float) :
  (a <=? a) = true -> (b <=? b) = true -> (a <=? b) = false -> (b <? a) = true.
Proof.
  rewrite !leb_spec, ltb_spec. intros Ha Hb.
  destruct (SFleb_rank _ _ Ha) as (Na & _ & _).
  destruct (SFleb_rank _ _ Hb) as (Nb & _ & _).
  apply SFleb_total; assumption.
Qed.

Lemma float_nonneg (d : float) : (0 <=? d) = true -> SF_nonneg (Prim2SF d).
Proof. rewrite leb_spec. apply SF_nonneg_leb. Qed.

(** A sum of two squares is never below zero. *)
Lemma float_square_sum (a b : float) : (a * a + b * b <? 0) = false.
Proof.
  rewrite ltb_spec, add_spec.
  pose proof (Prim2SF_valid (a * a)) as Va.
  pose proof (Prim2SF_valid (b * b)) as Vb.
  pose proof (SFmul_square (Prim2SF a)) as Ha.
  pose proof (SFmul_square (Prim2SF b)) as Hb.
  rewrite <- mul_spec in Ha, Hb.
  destruct Ha as [Ha|Ha].
  - destruct Hb as [Hb|Hb].
    + apply SFleb_not_ltb. apply SF_nonneg_leb. apply SFadd_nonneg; assumption.
    + rewrite Hb. destruct (Prim2SF (a * a)); reflexivity.
  - rewrite Ha. reflexivity.
Qed.

Lemma float_sub_self (a : float) : finite_float a -> a - a = 0.
Proof.
  intros [Hlo Hhi]. rewrite ltb_spec in Hlo, Hhi.
  rewrite <- (SF2Prim_Prim2SF (a - a)), sub_spec.
  change (Prim2SF neg_infinity) with (S754_infinity true) in Hlo.
  change (Prim2SF infinity) with (S754_infinity false) in Hhi.
  rewrite (SFsub_self _ Hlo Hhi). reflexivity.
Qed.
End PrimitiveOrder.

(** ** The cells in binary64 *)

Section Binary64Cells.
Local Open Scope float_scope.
Implicit Types (a b v : float) (l x y : list float).

(** X4.  The bowl of cell 15 on the grid of cell 5, in float64: the entry
    at row [i], column [j] is [(x[j]-2)**2 + (y[i]-2)**2], it is never
    below zero, and it is zero where the grid has the point [(2, 2)]. *)
Theorem zbowl_never_below_zero x y i j (z : float) :
  entry (cell15 (cell5 x y)) i j = Some z ->
  exists xj yi : float,
    x !! j = Some xj /\ y !! i = Some yi /\
    z = (xj - 2) * (xj - 2) + (yi - 2) * (yi - 2) /\
    (z <? 0) = false /\
    (xj = 2 -> yi = 2 -> z = 0).
Proof.
  rewrite entry_cell15.
  destruct (y !! i) as [yi|]; [|discriminate].
  destruct (x !! j) as [xj|]; [|discriminate].
  intros [= <-]. exists xj, yi.
  split; [reflexivity|]. split; [reflexivity|].
  change (@num_of_Z float float_number 2) with 2.
  cbn [num_add num_sub num_mul float_number].
  split; [reflexivity|]. split; [apply float_square_sum|].
  intros -> ->. reflexivity.
Qed.

(** X6.  [topo_cmap] returns only for data on both sides of zero.  For
    limits [(lo, hi)] (cell 20 passes the least and the greatest value of
    [topo.Z]) with some value between them, in float64: if [lo < 0 < hi]
    it returns what [add_colormaps] makes of both maps, the limits and
    the break [0.0]; otherwise no value is below zero ([0 <= lo]) or none
    is above ([hi <= 0]), and it raises [NameError] at [colors.Normalize]
    instead of returning the land or the water map.  It raises no
    [IndexError]. *)
Theorem topo_cmap_returns_only_for_mixed_data (lo hi z : float) :
  (lo <=? z) = true -> (z <=? hi) = true ->
  (topo_cmap [lo; hi] = Ok (add_colormaps (cmap_land, cmap_water) [lo; hi] 0) /\
   (lo <? 0) = true /\ (0 <? hi) = true) \/
  (topo_cmap [lo; hi] = Err NameError /\
   ((0 <=? lo) = true \/ (hi <=? 0) = true)).
Proof.
  intros Hlo Hhi. unfold topo_cmap.
  rewrite getitem_first, getitem_second. cbn [bind].
  rewrite float_zero. cbn [num_leb float_number].
  pose proof (float_leb_refl_l _ _ Hlo) as Rlo.
  pose proof (float_leb_refl_r _ _ Hhi) as Rhi.
  assert (R0 : (0 <=? 0) = true) by reflexivity.
  destruct (0 <=? lo) eqn:E1.
  - right. split; [reflexivity|]. left. reflexivity.
  - pose proof (float_leb_total 0 lo R0 Rlo E1) as Llo.
    destruct (hi <=? 0) eqn:E2.
    + right. split; [reflexivity|]. right. reflexivity.
    + left. split; [reflexivity|]. split; [exact Llo|].
      exact (float_leb_total hi 0 Rhi R0 E2).
Qed.

(** X8.  The extent of cell 24 never cuts into the grid, in float64: for
    finite first and last coordinates and a spacing [topo.delta] that is
    not negative, [x1 <= topo.x[0]] and [topo.x[-1] <= x2], so that
    [x1 <= x2] when the two coordinates are in order; the same along
    [y]. *)
Theorem extent2_bounds_binary64 (topo : Topography float) (x0 xl y0 yl : float) :
  getitem (topo_x topo) 0 = Ok x0 -> getitem (topo_x topo) (-1) = Ok xl ->
  getitem (topo_y topo) 0 = Ok y0 -> getitem (topo_y topo) (-1) = Ok yl ->
  finite_float x0 -> finite_float xl -> finite_float y0 -> finite_float yl ->
  (0 <=? fst (topo_delta topo)) = true -> (0 <=? snd (topo_delta topo)) = true ->
  exists x1 x2 y1 y2 : float,
    extent2 topo = Ok [x1; x2; y1; y2] /\
    (x1 <=? x0) = true /\ (xl <=? x2) = true /\
    (y1 <=? y0) = true /\ (yl <=? y2) = true /\
    ((x0 <=? xl) = true -> (x1 <=? x2) = true) /\
    ((y0 <=? yl) = true -> (y1 <=? y2) = true).
Proof.
  intros Gx0 Gxl Gy0 Gyl [_ Fx0] [Fxl _] [_ Fy0] [Fyl _] Dx Dy.
  unfold extent2. rewrite Gx0, Gxl, Gy0, Gyl. cbn [bind].
  do 4 eexists. split; [reflexivity|].
  cbn [num_sub num_add num_div float_number].
  assert (Hx : SF_nonneg (Prim2SF (fst (topo_delta topo) / float_of_Z 2))).
  { rewrite div_spec. change (Prim2SF (float_of_Z 2)) with SF_two.
    apply SFdiv_two_nonneg, float_nonneg, Dx. }
  assert (Hy : SF_nonneg (Prim2SF (snd (topo_delta topo) / float_of_Z 2))).
  { rewrite div_spec. change (Prim2SF (float_of_Z 2)) with SF_two.
    apply SFdiv_two_nonneg, float_nonneg, Dy. }
  pose proof (float_sub_le _ _ _ Fx0 Hx) as Lx.
  pose proof (float_add_ge _ _ _ Fxl Hx) as Ux.
  pose proof (float_sub_le _ _ _ Fy0 Hy) as Ly.
  pose proof (float_add_ge _ _ _ Fyl Hy) as Uy.
  repeat split; try assumption; intros O.
  - exact (float_leb_trans _ _ _ (float_leb_trans _ _ _ Lx O) Ux).
  - exact (float_leb_trans _ _ _ (float_leb_trans _ _ _ Ly O) Uy).
Qed.

(** X11.  A repeated first coordinate makes cell 7 raise [ValueError], in
    float64: with [x[0] = x[1]] finite the spacing is [0.0] and [np.arange]
    cannot size the edges; the same for [y]. *)
Theorem repeated_first_coordinate_raises a l b l' x y :
  finite_float a -> finite_float b -> (2 <= length x)%nat -> (2 <= length y)%nat ->
  cell7_edges (a :: a :: l) y = Err ValueError /\
  cell7_edges x (b :: b :: l') = Err ValueError.
Proof.
  intros Fa Fb Hx Hy. split.
  - destruct y as [|b1 [|b2 y]]; simpl in Hy; try lia.
    unfold cell7_edges. rewrite dx_cons, dy_cons. cbn [bind].
    cbn [num_sub float_number]. rewrite (float_sub_self a Fa).
    unfold xedge. rewrite getitem_first.
    destruct (getitem_last_cons a (a :: l)) as [xl ->]. cbn [bind].
    reflexivity.
  - destruct x as [|a1 [|a2 x]]; simpl in Hx; try lia.
    unfold cell7_edges. rewrite dx_cons, dy_cons. cbn [bind].
    cbn [num_sub float_number]. rewrite (float_sub_self b Fb).
    destruct (xedge _ _) as [xe|e] eqn:Ex; cbn [bind].
    + unfold yedge. rewrite getitem_first.
      destruct (getitem_last_cons b (b :: l')) as [yl ->]. cbn [bind].
      reflexivity.
    + apply xedge_cons_error in Ex. congruence.
Qed.

(** X15.  Strictly increasing float64 centres have a positive spacing:
    [dx = x[1] - x[0]] is above zero and is not zero, however close the
    two centres are, so [np.arange] in cell 7 is never handed a zero
    step. *)
Theorem spacing_positive_binary64 x :
  strictly_increasing x -> (2 <= length x)%nat ->
  exists d : float, dx x = Ok d /\ (0 <? d) = true /\ (d =? 0) = false.
Proof.
  intros Hs Hx.
  destruct x as [|a1 [|a2 x]]; simpl in Hx; try lia.
  destruct Hs as [H12 _]. cbn [num_ltb float_number] in H12.
  eexists. split; [apply dx_cons|].
  cbn [num_sub float_number].
  assert (P : SF_pos (Prim2SF (a2 - a1))).
  { rewrite sub_spec. rewrite ltb_spec in H12.
    apply SFsub_pos; auto using Prim2SF_valid. }
  split.
  - rewrite ltb_spec. apply SF_pos_ltb. exact P.
  - rewrite FloatAxioms.eqb_spec.
    destruct (Prim2SF (a2 - a1)) as [[|]|[|]| |[|] m e];
      try contradiction; reflexivity.
Qed.
End Binary64Cells.

(** ** Half a spacing, computed two ways *)

Section Halving.
Local Open Scope Z_scope.

Lemma shr_1_double (M : Z) :
  0 <= M ->
  shr_1 {| shr_m := 2 * M; shr_r := false; shr_s := false |}
  = {| shr_m := M; shr_r := false; shr_s := false |}.
Proof. destruct M; [reflexivity | reflexivity | lia]. Qed.

Lemma shr_1_iter_pow2 (k : nat) (M : Z) :
  0 <= M ->
  Nat.iter k shr_1 {| shr_m := M * 2 ^ Z.of_nat k; shr_r := false; shr_s := false |}
  = {| shr_m := M; shr_r := false; shr_s := false |}.
Proof.
  intros HM. induction k as [|k IH].
  - cbn [Nat.iter Z.of_nat]. rewrite Z.pow_0_r, Z.mul_1_r. reflexivity.
  - rewrite Nat.iter_succ_r.
    replace (M * 2 ^ Z.of_nat (S k)) with (2 * (M * 2 ^ Z.of_nat k)).
    + rewrite shr_1_double; [exact IH|]. apply Z.mul_nonneg_nonneg; [exact HM|].
      apply Z.pow_nonneg. lia.
    + rewrite Nat2Z.inj_succ, Z.pow_succ_r by lia. ring.
Qed.

Lemma shr_1_last (M : Z) :
  0 <= M ->
  shr_1 {| shr_m := M; shr_r := false; shr_s := false |}
  = {| shr_m := M / 2; shr_r := Z.odd M; shr_s := false |}.
Proof.
  intros HM. rewrite <- Z.div2_div.
  destruct M as [|[p|p|]|p]; try reflexivity. lia.
Qed.

(** Shifting [M * 2^k] right by [k] places loses nothing. *)
Lemma shr_exact (M e k : Z) :
  0 <= M -> 0 <= k ->
  shr {| shr_m := M * 2 ^ k; shr_r := false; shr_s := false |} e k
  = ({| shr_m := M; shr_r := false; shr_s := false |}, e + k).
Proof.
  intros HM Hk. unfold shr. destruct k as [|p|p]; try lia.
  - rewrite Z.pow_0_r, Z.mul_1_r, Z.add_0_r. reflexivity.
  - rewrite iter_pos_nat. f_equal.
    rewrite <- (positive_nat_Z p) at 1. apply shr_1_iter_pow2. exact HM.
Qed.

(** A canonical mantissa scaled up by [2^k], with the exponent lowered by
    [k], rounds back to itself. *)
Lemma binary_round_aux_scaled (s : bool) (m : positive) (f k : Z) :
  canonical (Z.pos m) f -> f <= 971 -> 0 <= k ->
  binary_round_aux prec emax s (Z.pos m * 2 ^ k) (f - k) loc_Exact
  = S754_finite s m f.
Proof.
  intros [_ C] Hf Hk. unfold binary_round_aux, shr_fexp.
  rewrite !fexp64_eq, Zdigits2_shift by lia.
  replace (Zdigits2 (Z.pos m) + k + (f - k)) with (Zdigits2 (Z.pos m) + f) by lia.
  rewrite C. replace (f - (f - k)) with k by lia.
  cbn [shr_record_of_loc].
  rewrite shr_exact by lia.
  cbn [shr_m loc_of_shr_record round_nearest_even shr_r shr_s].
  replace (f - k + k) with f by lia.
  rewrite fexp64_eq, C, Z.sub_diag. cbn [shr shr_m].
  change (emax - prec) with 971.
  replace (f <=? 971) with true by (symmetry; apply Z.leb_le; exact Hf).
  reflexivity.
Qed.

Lemma div_eucl_unique (a b q r : Z) :
  0 < b -> a = b * q + r -> 0 <= r < b -> Z.div_eucl a b = (q, r).
Proof.
  intros Hb E Hr.
  pose proof (Z_div_mod a b ltac:(lia)) as D.
  destruct (Z.div_eucl a b) as [q' r'].
  destruct D as [E' Hr'].
  assert (q' = q) by nia. subst q'. f_equal. lia.
Qed.

Lemma binary_round_aux_same (s : bool) (m1 e1 m2 e2 : Z) (l1 l2 : location) :
  shr_fexp prec emax m1 e1 l1 = shr_fexp prec emax m2 e2 l2 ->
  binary_round_aux prec emax s m1 e1 l1 = binary_round_aux prec emax s m2 e2 l2.
Proof. intros E. unfold binary_round_aux. rewrite E. reflexivity. Qed.

Lemma pow2_52 : Z.pos 4503599627370496 = 2 ^ 52.
Proof. reflexivity. Qed.

(** Above the smallest exponent, halving lowers the exponent by one,
    whether by [0.5 *] or by [/ 2.]. *)
Lemma SFmul_half_normal (s : bool) (m : positive) (e : Z) :
  canonical (Z.pos m) e -> e <= 971 -> -1074 < e ->
  SF64mul SF_half (S754_finite s m e) = S754_finite s m (e - 1).
Proof.
  intros [Hm C] He Hn. unfold SF64mul, SF_half. cbn [SFmul]. rewrite xorb_false_l.
  rewrite Pos2Z.inj_mul, pow2_52, Z.mul_comm.
  replace (-53 + e) with (e - 1 - 52) by lia.
  apply binary_round_aux_scaled; try lia.
  split; [exact Hm|]. unfold fexp64 in *. lia.
Qed.

Lemma SFdiv_two_normal (s : bool) (m : positive) (e : Z) :
  canonical (Z.pos m) e -> e <= 971 -> -1074 < e ->
  SF64div (S754_finite s m e) SF_two = S754_finite s m (e - 1).
Proof.
  intros [Hm C] He Hn. unfold SF64div, SF_two. cbn [SFdiv]. rewrite xorb_false_r.
  assert (Hd : Zdigits2 (Z.pos m) = 53) by (unfold fexp64 in C; lia).
  assert (Cm : canonical (Z.pos m) (e - 1)).
  { split; [exact Hm|]. unfold fexp64. lia. }
  unfold SFdiv_core_binary.
  change (Zdigits2 (Z.pos 4503599627370496)) with 53.
  rewrite fexp64_eq, Hd.
  destruct (Z.eq_dec e (-1073)) as [->|Hne].
  - change (Z.min (fexp64 (53 + -1073 - (53 + -51))) (-1073 - -51)) with (-1074).
    change (-1073 - -51 - -1074) with 52.
    cbv beta iota zeta.
    rewrite Z.shiftl_mul_pow2 by lia.
    rewrite (div_eucl_unique _ _ (Z.pos m) 0) by (rewrite ?pow2_52; lia).
    change (new_location (Z.pos 4503599627370496) 0) with loc_Exact.
    rewrite <- (Z.mul_1_r (Z.pos m)). change 1 with (2 ^ 0) at 1.
    change (-1074) with (-1073 - 1 - 0).
    apply binary_round_aux_scaled; try lia. exact Cm.
  - replace (Z.min (fexp64 (53 + e - (53 + -51))) (e - -51)) with (e - 2)
      by (unfold fexp64; lia).
    replace (e - -51 - (e - 2)) with 53 by lia.
    cbv beta iota zeta.
    rewrite Z.shiftl_mul_pow2 by lia.
    rewrite (div_eucl_unique _ _ (Z.pos m * 2 ^ 1) 0)
      by (rewrite ?pow2_52; change (2 ^ 53) with (2 ^ 52 * 2 ^ 1); lia).
    change (new_location (Z.pos 4503599627370496) 0) with loc_Exact.
    replace (e - 2) with (e - 1 - 1) by lia.
    apply binary_round_aux_scaled; try lia. exact Cm.
Qed.

Lemma Zdigits2_half (M : Z) : 0 < M -> Zdigits2 M <= 53 -> 0 <= Zdigits2 (M / 2) <= 53.
Proof.
  intros HM Hd.
  destruct (Z.eq_dec (M / 2) 0) as [->|Hne]; [cbn; lia|].
  assert (0 < M / 2) by (pose proof (Z.div_pos M 2); lia).
  pose proof (Zdigits2_pos (M / 2) ltac:(lia)).
  pose proof (Zdigits2_mono (M / 2) M
                ltac:(split; [lia|]; apply Z.div_le_upper_bound; lia)).
  lia.
Qed.

(** At the smallest exponent the product with [0.5] drops the last bit of
    the mantissa and keeps it as the rounding bit. *)
Lemma shr_fexp_mul_half (m : positive) :
  Zdigits2 (Z.pos m) <= 53 ->
  shr_fexp prec emax (Z.pos (4503599627370496 * m)) (-53 + -1074) loc_Exact
  = ({| shr_m := Z.pos m / 2; shr_r := Z.odd (Z.pos m); shr_s := false |}, -1074).
Proof.
  intros Hd. unfold shr_fexp.
  rewrite Pos2Z.inj_mul, pow2_52, Z.mul_comm.
  rewrite fexp64_eq, Zdigits2_shift by lia.
  pose proof (Zdigits2_pos (Z.pos m) ltac:(lia)) as Hp.
  replace (fexp64 (Zdigits2 (Z.pos m) + 52 + (-53 + -1074)) - (-53 + -1074)) with 53
    by (unfold fexp64; lia).
  cbn [shr_record_of_loc shr]. rewrite iter_pos_nat.
  change (Pos.to_nat 53) with (S 52). rewrite Nat.iter_succ.
  change (2 ^ 52) with (2 ^ Z.of_nat 52).
  rewrite shr_1_iter_pow2, shr_1_last by lia.
  reflexivity.
Qed.

(** So does the quotient by [2.]. *)
Lemma SFdiv_core_two (m : positive) :
  Zdigits2 (Z.pos m) <= 53 ->
  SFdiv_core_binary prec emax (Z.pos m) (-1074) (Z.pos 4503599627370496) (-51)
  = (Z.pos m / 2, -1074,
     if Z.odd (Z.pos m) then loc_Inexact Eq else loc_Exact).
Proof.
  intros Hd. unfold SFdiv_core_binary.
  pose proof (Zdigits2_pos (Z.pos m) ltac:(lia)) as Hp.
  change (Zdigits2 (Z.pos 4503599627370496)) with 53.
  rewrite fexp64_eq.
  replace (Z.min (fexp64 (Zdigits2 (Z.pos m) + -1074 - (53 + -51))) (-1074 - -51))
    with (-1074) by (unfold fexp64; lia).
  change (-1074 - -51 - -1074) with 51. cbv beta iota zeta.
  rewrite Z.shiftl_mul_pow2 by lia.
  pose proof (Z.div_mod (Z.pos m) 2 ltac:(lia)) as D.
  pose proof (Zmod_odd (Z.pos m)) as O.
  rewrite (div_eucl_unique _ _ (Z.pos m / 2) ((Z.pos m mod 2) * 2 ^ 51)).
  - rewrite O. destruct (Z.odd (Z.pos m)); reflexivity.
  - lia.
  - rewrite pow2_52. change (2 ^ 52) with (2 * 2 ^ 51).
    set (p := 2 ^ 51) in *. set (q := Z.pos m / 2) in *. set (r := Z.pos m mod 2) in *.
    rewrite D. ring.
  - rewrite O. destruct (Z.odd (Z.pos m)); rewrite pow2_52; cbn; lia.
Qed.

Lemma shr_fexp_div_two (m : positive) :
  Zdigits2 (Z.pos m) <= 53 ->
  shr_fexp prec emax (Z.pos m / 2) (-1074)
    (if Z.odd (Z.pos m) then loc_Inexact Eq else loc_Exact)
  = ({| shr_m := Z.pos m / 2; shr_r := Z.odd (Z.pos m); shr_s := false |}, -1074).
Proof.
  intros Hd. unfold shr_fexp. rewrite fexp64_eq.
  pose proof (Zdigits2_half (Z.pos m) ltac:(lia) Hd) as Hh.
  replace (fexp64 (Zdigits2 (Z.pos m / 2) + -1074) - -1074) with 0
    by (unfold fexp64; lia).
  cbn [shr]. destruct (Z.odd (Z.pos m)); reflexivity.
Qed.

Lemma SF_half_subnormal (s : bool) (m : positive) :
  Zdigits2 (Z.pos m) <= 53 ->
  SF64mul SF_half (S754_finite s m (-1074)) = SF64div (S754_finite s m (-1074)) SF_two.
Proof.
  intros Hd. unfold SF64mul, SF64div, SF_half, SF_two. cbn [SFmul SFdiv].
  rewrite xorb_false_l, xorb_false_r, (SFdiv_core_two m Hd).
  apply binary_round_aux_same.
  rewrite shr_fexp_mul_half, shr_fexp_div_two by exact Hd. reflexivity.
Qed.

(** [0.5 * d] and [d / 2.] are the same float, whatever [d] is. *)
Lemma SF_half_mul_div (d : spec_float) :
  valid_binary d = true -> SF64mul SF_half d = SF64div d SF_two.
Proof.
  intros V. destruct d as [s|s| |s m e]; try (destruct s; reflexivity); try reflexivity.
  destruct (valid_finite _ _ _ V) as [C He].
  destruct (canonical_exponent _ _ C) as [Hlo Hd].
  destruct (Z.eq_dec e (-1074)) as [->|Hne].
  - apply SF_half_subnormal. exact Hd.
  - rewrite SFmul_half_normal, SFdiv_two_normal by (try assumption; lia). reflexivity.
Qed.
End Halving.

Section FirstEdge.
Local Open Scope float_scope.
Implicit Types (x y : list float).

Lemma float_half_mul_div (d : float) : 0.5 * d = d / 2.
Proof.
  apply Prim2SF_inj. rewrite mul_spec, div_spec.
  change (Prim2SF 0.5) with SF_half. change (Prim2SF 2) with SF_two.
  apply SF_half_mul_div, Prim2SF_valid.
Qed.

(** The first entry of [np.arange(start, stop, step)], if there is one, is
    [start]. *)
Lemma arange_head {R} `{Number R} (start stop step : R) es v :
  arange start stop step = Ok es -> head es = Some v -> v = start.
Proof.
  unfold arange. destruct (num_eqb _ _); [discriminate|].
  destruct (num_ceil _) as [len|]; [|discriminate].
  intros [= <-]. destruct (Z.to_nat len) as [|n]; [discriminate|].
  rewrite arange_fill_head. congruence.
Qed.

Lemma xedge_head a1 a2 l es (v : float) :
  xedge (a1 :: a2 :: l) (a2 - a1) = Ok es -> head es = Some v ->
  v = a1 - (a2 - a1) / 2.
Proof.
  unfold xedge. rewrite getitem_first.
  destruct (getitem_last_cons a1 (a2 :: l)) as [xl ->]. cbn [bind].
  intros E Hv. rewrite (arange_head _ _ _ _ _ E Hv).
  cbn [num_sub num_mul num_half float_number].
  rewrite float_half_mul_div. reflexivity.
Qed.

(** X16.  Cell 7 and cell 24 start on the same float: whenever cell 7
    returns edges for float64 centres, its first edge
    [x[0] - 0.5*dx], if the edge array has one, is bit for bit the
    [x[0] - dx/2.] of the extent, and the same along [y]. *)
Theorem first_edge_is_extent_binary64 x y (e : edges float) :
  cell7_edges x y = Ok e ->
  exists x1 x2 y1 y2 : float,
    centers_extent x y = Ok [x1; x2; y1; y2] /\
    (forall lo, head (edges_x e) = Some lo -> lo = x1) /\
    (forall lo, head (edges_y e) = Some lo -> lo = y1).
Proof.
  intros E.
  destruct (cell7_edges_Ok_inv x y e E)
    as (a1 & a2 & l & b1 & b2 & l' & -> & -> & Ex & Ey).
  destruct (centers_extent_cons a1 a2 l b1 b2 l') as (xl & yl & _ & _ & B).
  do 4 eexists. split; [exact B|].
  split; intros lo Hlo.
  - exact (xedge_head a1 a2 l _ lo Ex Hlo).
  - exact (xedge_head b1 b2 l' _ lo Ey Hlo).
Qed.
End FirstEdge.

(** ** The cells without rounding *)

Section FillEntries.
Context {R : Type} `{Number R}.

Lemma range_lookup n i : (i < n)%nat -> range n !! i = Some (Z.of_nat i).
Proof.
  intros Hi. unfold range. rewrite lookup_map, lookup_seq_lt by exact Hi. reflexivity.
Qed.

Lemma arange_fill_lookup (start step : R) n i :
  (i < n)%nat ->
  arange_fill start step n !! i
  = Some (if (Z.of_nat i =? 0)%Z then start
          else if (Z.of_nat i =? 1)%Z then (start + step)%num
          else (start + num_of_Z (Z.of_nat i) * ((start + step) - start))%num).
Proof.
  intros Hi. unfold arange_fill. rewrite lookup_map, range_lookup by exact Hi.
  reflexivity.
Qed.
End FillEntries.

Section ExactCells.
Local Open Scope Q_scope.
Implicit Types (a b d v : Q) (l x y : list Q).

(** Without rounding the entries of [np.arange] are [start + i*step]. *)
Lemma arange_fill_lookup_exact (start step : Q) n i :
  (i < n)%nat ->
  exists e, arange_fill start step n !! i = Some e /\
            e == start + inject_Z (Z.of_nat i) * step.
Proof.
  intros Hi. rewrite arange_fill_lookup by exact Hi. eexists. split; [reflexivity|].
  destruct i as [|[|i]].
  - change (Z.of_nat 0 =? 0)%Z with true. cbv iota.
    change (inject_Z (Z.of_nat 0)) with 0. ring.
  - change (Z.of_nat 1 =? 0)%Z with false. change (Z.of_nat 1 =? 1)%Z with true.
    cbv iota. cbn [num_add Q_number].
    change (inject_Z (Z.of_nat 1)) with 1. ring.
  - replace (Z.of_nat (S (S i)) =? 0)%Z with false by (symmetry; apply Z.eqb_neq; lia).
    replace (Z.of_nat (S (S i)) =? 1)%Z with false by (symmetry; apply Z.eqb_neq; lia).
    cbn [num_add num_sub num_mul num_of_Z Q_number]. ring.
Qed.

Lemma evenly_spaced_lookup d a l i c :
  evenly_spaced d (a :: l) -> (a :: l) !! i = Some c ->
  c == a + inject_Z (Z.of_nat i) * d.
Proof.
  revert a i. induction l as [|b l IH]; intros a i Hs Hl.
  - destruct i as [|i]; [|destruct i; discriminate].
    injection Hl as <-. cbn. ring.
  - destruct i as [|i].
    + injection Hl as <-. cbn. ring.
    + destruct Hs as [Hab Hs]. apply Q_eqb_eq in Hab. change (b - a == d) in Hab.
      change ((b :: l) !! i = Some c) in Hl.
      rewrite (IH b i Hs Hl), Nat2Z.inj_succ. unfold Z.succ.
      rewrite inject_Z_plus. change (inject_Z 1) with 1. lra.
Qed.

Lemma xedge_fails_on_zero x d : d == 0 -> exists e, xedge x d = Err e.
Proof.
  intros Hd. unfold xedge.
  destruct (getitem x 0); [|eauto]. cbn [bind].
  destruct (getitem x (-1)); [|eauto]. cbn [bind].
  unfold arange. cbn [num_eqb num_of_Z Q_number].
  replace (Qeq_bool d (inject_Z 0)) with true; [eauto|].
  symmetry. apply Qeq_bool_iff. exact Hd.
Qed.

(** On uniformly spaced centres, whichever way they run, cell 7 makes one
    edge more than there are centres. *)
Lemma xedge_fill_exact a1 a2 l :
  uniformly_spaced (a1 :: a2 :: l) -> ~ a2 - a1 == 0 ->
  xedge (a1 :: a2 :: l) (a2 - a1)
  = Ok (arange_fill (a1 - (1 # 2) * (a2 - a1)) (a2 - a1) (S (S (S (length l))))).
Proof.
  intros Hu Hd.
  destruct (getitem_last_cons a1 (a2 :: l)) as [cl Hl].
  pose proof (evenly_spaced_last _ a1 (a2 :: l) cl Hu (getitem_last_inv _ _ Hl)) as Hcl.
  set (k := length (a2 :: l)) in *.
  cbn [num_sub num_add num_div num_of_Z Q_number] in *.
  set (d := a2 - a1) in *.
  assert (Hlen : Qceiling ((cl + d - (a1 - (1 # 2) * d)) / d) = (Z.of_nat k + 1 + 1)%Z).
  { apply Qceiling_half. rewrite Hcl, inject_Z_plus. change (inject_Z 1) with 1.
    field. exact Hd. }
  unfold xedge. rewrite getitem_first, Hl. cbn [bind].
  cbn [num_sub num_add num_mul num_half Q_number].
  rewrite arange_exact by exact Hd. fold d. rewrite Hlen.
  replace (Z.to_nat (Z.of_nat k + 1 + 1)) with (S (S k)) by lia.
  reflexivity.
Qed.

Lemma axis_midpoints a1 a2 l es :
  uniformly_spaced (a1 :: a2 :: l) -> xedge (a1 :: a2 :: l) (a2 - a1)%num = Ok es ->
  forall i c, (a1 :: a2 :: l) !! i = Some c ->
    exists lo hi, es !! i = Some lo /\ es !! S i = Some hi /\
                  c == (lo + hi) / 2 /\ hi - lo == a2 - a1.
Proof.
  intros Hu He i c Hc.
  cbn [num_sub Q_number] in He.
  destruct (Qeq_dec (a2 - a1) 0) as [Hd|Hd].
  { destruct (xedge_fails_on_zero (a1 :: a2 :: l) _ Hd) as [e E]. congruence. }
  rewrite (xedge_fill_exact a1 a2 l Hu Hd) in He. injection He as <-.
  pose proof (lookup_lt_Some _ _ _ Hc) as Hi. cbn [length] in Hi.
  destruct (arange_fill_lookup_exact (a1 - (1 # 2) * (a2 - a1)) (a2 - a1)
              (S (S (S (length l)))) i ltac:(lia)) as (lo & Elo & Hlo).
  destruct (arange_fill_lookup_exact (a1 - (1 # 2) * (a2 - a1)) (a2 - a1)
              (S (S (S (length l)))) (S i) ltac:(lia)) as (hi & Ehi & Hhi).
  exists lo, hi. split; [exact Elo|]. split; [exact Ehi|].
  pose proof (evenly_spaced_lookup _ a1 (a2 :: l) i c Hu Hc) as Hci.
  cbn [num_sub Q_number] in Hci.
  rewrite Nat2Z.inj_succ in Hhi. unfold Z.succ in Hhi.
  rewrite inject_Z_plus in Hhi. change (inject_Z 1) with 1 in Hhi.
  rewrite Qhalf.
  revert Hlo Hhi Hci. generalize (inject_Z (Z.of_nat i)). intros q Hlo Hhi Hci.
  split; [rewrite Hlo, Hhi, Hci; ring | rewrite Hlo, Hhi; ring].
Qed.

(** X13.  Without rounding, the edges of cell 7 put every centre in the
    middle of its cell: for uniformly spaced centres (running up or down)
    on which the cell returns, centre [i] is halfway between edge [i] and
    edge [i+1], and the two are one spacing apart. *)
Theorem centers_are_midpoints_exact x y (e : edges Q) :
  uniformly_spaced x -> uniformly_spaced y -> cell7_edges x y = Ok e ->
  exists dx_ dy_,
    dx x = Ok dx_ /\ dy y = Ok dy_ /\
    (forall i c, x !! i = Some c ->
       exists lo hi, edges_x e !! i = Some lo /\ edges_x e !! S i = Some hi /\
                     c == (lo + hi) / 2 /\ hi - lo == dx_) /\
    (forall i c, y !! i = Some c ->
       exists lo hi, edges_y e !! i = Some lo /\ edges_y e !! S i = Some hi /\
                     c == (lo + hi) / 2 /\ hi - lo == dy_).
Proof.
  intros Hux Huy E.
  destruct (cell7_edges_Ok_inv x y e E)
    as (a1 & a2 & l & b1 & b2 & l' & -> & -> & Ex & Ey).
  exists (a2 - a1), (b2 - b1).
  split; [exact (dx_cons a1 a2 l)|]. split; [exact (dy_cons b1 b2 l')|].
  split; [exact (axis_midpoints a1 a2 l _ Hux Ex)
         |exact (axis_midpoints b1 b2 l' _ Huy Ey)].
Qed.

(** X9.  Without rounding, the extent of cell 24 spans one cell per
    centre: for centres spaced by [topo.delta], [x2 - x1] is the number of
    x centres times the x spacing, and the same along [y]. *)
Theorem extent2_spans_cells_exact (topo : Topography Q) :
  topo_x topo <> [] -> topo_y topo <> [] ->
  evenly_spaced (fst (topo_delta topo)) (topo_x topo) ->
  evenly_spaced (snd (topo_delta topo)) (topo_y topo) ->
  exists x1 x2 y1 y2 : Q,
    extent2 topo = Ok [x1; x2; y1; y2] /\
    x2 - x1 == inject_Z (Z.of_nat (length (topo_x topo))) * fst (topo_delta topo) /\
    y2 - y1 == inject_Z (Z.of_nat (length (topo_y topo))) * snd (topo_delta topo).
Proof.
  destruct topo as [x y [d1 d2]]. cbn [topo_x topo_y topo_delta fst snd].
  destruct x as [|a x]; [congruence|]. destruct y as [|b y]; [congruence|].
  intros _ _ Hx Hy.
  destruct (extent2_cons a x b y (d1, d2)) as (xl & yl & Hxl & Hyl & E).
  do 4 eexists. split; [exact E|]. cbn [fst snd].
  pose proof (evenly_spaced_last _ a x xl Hx (getitem_last_inv _ _ Hxl)) as Exl.
  pose proof (evenly_spaced_last _ b y yl Hy (getitem_last_inv _ _ Hyl)) as Eyl.
  cbn [num_sub num_add num_div num_of_Z Q_number].
  change (inject_Z 2) with 2. rewrite !Qhalf, Exl, Eyl.
  cbn [length]. rewrite !Nat2Z.inj_succ. unfold Z.succ. rewrite !inject_Z_plus.
  change (inject_Z 1) with 1. split; ring.
Qed.

(** A sequence whose entry [i] is [a + i*d]. *)
Lemma affine_sequence a d l :
  (forall i v, l !! i = Some v -> v == a + inject_Z (Z.of_nat i) * d) ->
  (0 < d -> strictly_increasing l) /\ (forall d', d' == d -> evenly_spaced d' l).
Proof.
  revert a. induction l as [|v0 [|v1 t] IH]; intros a Hf.
  - split; intros; exact I.
  - split; intros; exact I.
  - pose proof (Hf 0%nat v0 eq_refl) as H0.
    pose proof (Hf 1%nat v1 eq_refl) as H1.
    change (inject_Z (Z.of_nat 0)) with 0 in H0.
    change (inject_Z (Z.of_nat 1)) with 1 in H1.
    destruct (IH (a + d)) as [IHs IHe].
    { intros i v Hv. rewrite (Hf (S i) v Hv), Nat2Z.inj_succ. unfold Z.succ.
      rewrite inject_Z_plus. change (inject_Z 1) with 1. ring. }
    split.
    + intros Hd. split; [|exact (IHs Hd)]. apply Q_ltb_lt. lra.
    + intros d' Hd'. split; [|exact (IHe d' Hd')].
      apply Q_eqb_eq. change (v1 - v0 == d'). lra.
Qed.

(** X14.  Without rounding, the centres of cell 5 are what cell 7 and
    cell 24 assume: [linspace(start, stop, num)] with [start < stop] and
    [num >= 2] has [num] entries, entry [i] is
    [start + i*(stop - start)/(num - 1)], the last one is [stop], and the
    sequence is strictly increasing and uniformly spaced. *)
Theorem linspace_exact (start stop : Q) (num : nat) :
  (2 <= num)%nat -> start < stop ->
  let c := linspace start stop num in
  let step := (stop - start) / inject_Z (Z.of_nat (num - 1)) in
  length c = num /\ last c = Some stop /\
  (forall i v, c !! i = Some v -> v == start + inject_Z (Z.of_nat i) * step) /\
  strictly_increasing c /\ uniformly_spaced c.
Proof.
  intros Hn Hlt c step.
  destruct num as [|[|k]]; try lia.
  set (div := S k) in *.
  assert (Ec : c = map (fun i : Z => inject_Z i * step + start) (range div) ++ [stop]).
  { subst c step. unfold linspace. fold div.
    replace (S div - 1)%nat with div by lia. reflexivity. }
  assert (Hdiv : 0 < inject_Z (Z.of_nat div)).
  { change 0 with (inject_Z 0). rewrite <- Zlt_Qlt. subst div. lia. }
  assert (Hstep : 0 < step).
  { subst step. replace (S div - 1)%nat with div by lia.
    apply Qlt_shift_div_l; [exact Hdiv|]. lra. }
  assert (Hf : forall i v, c !! i = Some v -> v == start + inject_Z (Z.of_nat i) * step).
  { intros i v Hv. rewrite Ec in Hv.
    destruct (Nat.lt_ge_cases i div) as [Hi|Hi].
    - rewrite lookup_app_l in Hv by (rewrite length_map, range_length; exact Hi).
      rewrite lookup_map, range_lookup in Hv by exact Hi.
      injection Hv as <-. ring.
    - rewrite lookup_app_r in Hv by (rewrite length_map, range_length; exact Hi).
      rewrite length_map, range_length in Hv.
      destruct (i - div)%nat as [|j] eqn:Ej; [|destruct j; discriminate].
      injection Hv as <-. replace i with div by lia.
      subst step. replace (S div - 1)%nat with div by lia.
      field. lra. }
  split; [rewrite Ec, length_app, length_map, range_length; simpl; lia|].
  split; [rewrite Ec; apply last_snoc|].
  split; [exact Hf|].
  destruct (affine_sequence start step c Hf) as [Hs He].
  split; [exact (Hs Hstep)|].
  destruct c as [|v0 [|v1 t]]; try exact I.
  apply He.
  pose proof (Hf 0%nat v0 eq_refl) as H0.
  pose proof (Hf 1%nat v1 eq_refl) as H1.
  change (inject_Z (Z.of_nat 0)) with 0 in H0.
  change (inject_Z (Z.of_nat 1)) with 1 in H1.
  cbn [num_sub Q_number]. lra.
Qed.
End ExactCells.

(** ** Instances of the further properties *)

(** X1 on the sample: row 1, column 2 of [Z] is [2.5 + 1.5]. *)
Lemma sample_entry_is_a_sum :
  let s := cell5 xcenter ycenter in
  entry (sample_X s) 1 2 = Some 2.5%float /\
  entry (sample_Y s) 1 2 = Some 1.5%float /\
  entry (sample_Z s) 1 2 = Some 4%float.
Proof.
  refine (cell5_entries xcenter ycenter 1 2 2.5%float 1.5%float _ _);
    vm_compute; reflexivity.
Defined.

(** X4 on the sample: the bowl at the centre [(2.5, 1.5)]. *)
Lemma zbowl_on_sample :
  exists xj yi : float,
    xcenter !! 2%nat = Some xj /\ ycenter !! 1%nat = Some yi /\
    0.5%float = ((xj - 2) * (xj - 2) + (yi - 2) * (yi - 2))%float /\
    (0.5 <? 0)%float = false /\
    (xj = 2%float -> yi = 2%float -> 0.5%float = 0%float).
Proof.
  refine (zbowl_never_below_zero xcenter ycenter 1 2 0.5%float _).
  vm_compute. reflexivity.
Defined.

(** X6 for data between [-2.0] and [3.0]: both maps, broken at [0.0]. *)
Lemma topo_cmap_on_mixed_data :
  topo_cmap [-2; 3]%float
  = Ok (add_colormaps (cmap_land, cmap_water) [-2; 3]%float 0%float) /\
  ((topo_cmap [-2; 3]%float
    = Ok (add_colormaps (cmap_land, cmap_water) [-2; 3]%float 0%float) /\
    (-2 <? 0)%float = true /\ (0 <? 3)%float = true) \/
   (topo_cmap [-2; 3]%float = Err NameError /\
    ((0 <=? -2)%float = true \/ (3 <=? 0)%float = true))).
Proof.
  split; [vm_compute; reflexivity|].
  refine (topo_cmap_returns_only_for_mixed_data (-2)%float 3%float 0.5%float _ _);
    vm_compute; reflexivity.
Defined.

(** Data on land only, between [1.0] and [5.0], and under water only,
    between [-5.0] and [-1.0]: the name [colors] is looked up. *)
Example topo_cmap_on_land_or_water :
  topo_cmap [1; 5]%float = Err NameError /\
  topo_cmap [-5; -1]%float = Err NameError.
Proof. vm_compute. split; reflexivity. Qed.

(** X8 on the sample topography: the box [[0, 4, 0, 5]]. *)
Lemma extent2_bounds_sample_topo :
  exists x1 x2 y1 y2 : float,
    extent2 sample_topo = Ok [x1; x2; y1; y2] /\
    (x1 <=? 0.5)%float = true /\ (3.5 <=? x2)%float = true /\
    (y1 <=? 0.5)%float = true /\ (4.5 <=? y2)%float = true /\
    ((0.5 <=? 3.5)%float = true -> (x1 <=? x2)%float = true) /\
    ((0.5 <=? 4.5)%float = true -> (y1 <=? y2)%float = true).
Proof.
  apply (extent2_bounds_binary64 sample_topo 0.5%float 3.5%float 0.5%float 4.5%float);
    try (vm_compute; reflexivity); split; vm_compute; reflexivity.
Defined.

(** X9 on the same topography as rationals: four cells by five. *)
Lemma extent2_spans_sample_topo :
  exists x1 x2 y1 y2 : Q,
    extent2 sample_topo_exact = Ok [x1; x2; y1; y2] /\
    (x2 - x1 == inject_Z 4 * 1)%Q /\ (y2 - y1 == inject_Z 5 * 1)%Q.
Proof.
  apply (extent2_spans_cells_exact sample_topo_exact).
  - discriminate.
  - discriminate.
  - vm_compute. repeat split.
  - vm_compute. repeat split.
Defined.

(** X11 on the centres of the notebook with the first one repeated. *)
Lemma repeated_centre_raises :
  cell7_edges [0.5; 0.5; 2.5]%float ycenter = Err ValueError /\
  cell7_edges xcenter [0.5; 0.5; 2.5]%float = Err ValueError.
Proof.
  apply (repeated_first_coordinate_raises 0.5%float [2.5%float] 0.5%float
           [2.5%float] xcenter ycenter).
  - split; vm_compute; reflexivity.
  - split; vm_compute; reflexivity.
  - vm_compute. lia.
  - vm_compute. lia.
Defined.

(** X13 on the centres of the notebook as rationals. *)
Lemma notebook_centres_are_midpoints :
  exists e : edges Q,
    cell7_edges xcenter_exact ycenter_exact = Ok e /\
    exists dx_ dy_ : Q,
      dx xcenter_exact = Ok dx_ /\ dy ycenter_exact = Ok dy_ /\
      (forall i c, xcenter_exact !! i = Some c ->
         exists lo hi, edges_x e !! i = Some lo /\ edges_x e !! S i = Some hi /\
                       (c == (lo + hi) / 2)%Q /\ (hi - lo == dx_)%Q) /\
      (forall i c, ycenter_exact !! i = Some c ->
         exists lo hi, edges_y e !! i = Some lo /\ edges_y e !! S i = Some hi /\
                       (c == (lo + hi) / 2)%Q /\ (hi - lo == dy_)%Q).
Proof.
  eexists. split; [vm_compute; reflexivity|].
  apply centers_are_midpoints_exact.
  - vm_compute. repeat split.
  - vm_compute. repeat split.
  - vm_compute. reflexivity.
Defined.

(** X14 for the x centres of cell 5: [linspace(0.5, 3.5, 4)]. *)
Lemma linspace_of_cell5 :
  let c := linspace (1 # 2)%Q (7 # 2)%Q 4 in
  let step := (((7 # 2) - (1 # 2)) / inject_Z (Z.of_nat (4 - 1)))%Q in
  length c = 4%nat /\ last c = Some (7 # 2)%Q /\
  (forall i v, c !! i = Some v -> v == (1 # 2) + inject_Z (Z.of_nat i) * step)%Q /\
  strictly_increasing c /\ uniformly_spaced c.
Proof.
  apply (linspace_exact (1 # 2)%Q (7 # 2)%Q 4).
  - lia.
  - reflexivity.
Defined.

(** X15 on three consecutive floats: the spacing is one unit in the last
    place, and positive. *)
Lemma spacing_of_tight_centers :
  exists d : float,
    dx tight_centers = Ok d /\ (0 <? d)%float = true /\ (d =? 0)%float = false.
Proof.
  apply (spacing_positive_binary64 tight_centers).
  - vm_compute. repeat split.
  - vm_compute. lia.
Defined.

(** X16 on the same floats, where the edge count of cell 7 is off: the
    first edge is still the lower end of the extent. *)
Lemma first_edge_of_tight_centers :
  exists x1 x2 y1 y2 : float,
    centers_extent tight_centers tight_centers = Ok [x1; x2; y1; y2] /\
    (forall lo, head tight_centers = Some lo -> lo = x1) /\
    (forall lo, head tight_centers = Some lo -> lo = y1).
Proof.
  apply (first_edge_is_extent_binary64 tight_centers tight_centers
           {| edges_x := tight_centers; edges_y := tight_centers |}).
  vm_compute. reflexivity.
Defined.
